(** * Roll20Api: the entity store, the event bus and the binding layer

    A shallow embedding of [src/roll20api.ts] (the [library] closure of
    [basiliskasterisk__roll20Api]): the [Roll20Object] class with its static
    [pool], the [MOCKS] query and event functions, [_fireEvent], and the loop
    that fills [_api].

    Conventions of the embedding.
    - A JavaScript object used as a dictionary ([Roll20Object.pool], the
      [_obj] field bag, [MOCKS._handlers], a search pattern) is a [gmap]
      with string keys, holding the own properties of the object.  These
      objects inherit from [Object.prototype]: where the code looks a name
      up in [MOCKS._handlers] the members it finds there are modelled
      ([Object_prototype_names]), and so is the setter [__proto__] it
      reaches when it writes a field.  Everywhere else a name is looked up
      among the own properties only, and the statements below keep the
      members of [Object.prototype] out by a hypothesis.
    - Objects that are shared and mutated in place live in a store and are
      named by an address: every [Roll20Object] instance, and every
      handler array held by [MOCKS._handlers].  Every instance has a bag
      of its own: an initializer is handed to the constructor once.  The
      pool and the bags keep the prototype they are made with: no
      instance has the id [__proto__], and no bag is given another
      prototype.
    - Code is written in a state-and-exception monad over that store; a
      [throw] is the [Throw] outcome.
    - Calls into the logger ([trace], [info], [log], [error]) are appended
      to the [console] of the store, one structured entry per call; whether
      the logger prints an entry (its level threshold) is the logger's
      business. *)

From Stdlib Require Import ZArith Ascii String.
From stdpp Require Import base option list strings gmap pretty.

Local Open Scope Z_scope.
Local Open Scope string_scope.

(** ** JavaScript values *)

(** The values a field, a pattern entry or an event payload can hold:
    primitives, and references to objects ([VObj o] is the object at
    address [o]; the [_obj] bag of the instance at address [r] is the
    object [VObj r]).  Numbers are the integers; functions are not
    stored in fields. *)
Inductive JsValue : Type :=
  | VUndefined
  | VNull
  | VBool (b : bool)
  | VNum (n : Z)
  | VStr (s : string)
  | VObj (o : nat).

#[global] Instance JsValue_eq_dec : EqDecision JsValue.
Proof. solve_decision. Defined.

#[global] Instance JsValue_inhabited : Inhabited JsValue := populate VUndefined.

(** What the host runtime contributes to coercions between numbers and
    strings, and to case folding.  None of it is code of this repository. *)
Class JsRuntime : Type := {
  (** [Number(s)]: [None] when the result is [NaN] or not an integer. *)
  StringToNumber : string → option Z;
  (** [String(n)]. *)
  NumberToString : Z → string;
  (** [s.toLowerCase()]. *)
  toLowerCase : string → string;
}.

(** [typeof v === "string"]. *)
Definition typeof_string (v : JsValue) : bool :=
  match v with VStr _ => true | _ => false end.

(** Truthiness, as tested by [||], [!] and [if]. *)
Definition truthy (v : JsValue) : bool :=
  match v with
  | VUndefined | VNull => false
  | VBool b => b
  | VNum n => negb (n =? 0)%Z
  | VStr s => negb (bool_decide (s = EmptyString))
  | VObj _ => true
  end.

(** [a || b]. *)
Definition js_or (a b : JsValue) : JsValue := if truthy a then a else b.

(** [a === b]. *)
Definition strict_eq (a b : JsValue) : bool := bool_decide (a = b).

(** The string an ordinary object converts to. *)
Definition object_Object : string := "[object Object]".

Section Coercions.
Context `{JsRuntime}.

(** [String(v)], also the conversion of a computed property key and of a
    value interpolated in a template literal. *)
Definition ToString (v : JsValue) : string :=
  match v with
  | VUndefined => "undefined"
  | VNull => "null"
  | VBool true => "true"
  | VBool false => "false"
  | VNum n => NumberToString n
  | VStr s => s
  | VObj _ => object_Object
  end.

(** [Number(v)] for a primitive; [None] is [NaN]. *)
Definition ToNumber (v : JsValue) : option Z :=
  match v with
  | VUndefined => None
  | VNull => Some 0
  | VBool b => Some (if b then 1 else 0)
  | VNum n => Some n
  | VStr s => StringToNumber s
  | VObj _ => StringToNumber object_Object
  end.

(** [a == b] (abstract equality).  Values of one type compare as [===];
    [null] and [undefined] equal each other and nothing else; an object
    meets a primitive through its string form; what remains is a
    comparison of numbers, false on [NaN]. *)
Definition loose_eq (a b : JsValue) : bool :=
  match a, b with
  | VUndefined, VUndefined | VUndefined, VNull
  | VNull, VUndefined | VNull, VNull => true
  | VUndefined, _ | VNull, _ | _, VUndefined | _, VNull => false
  | VBool x, VBool y => bool_decide (x = y)
  | VNum x, VNum y => (x =? y)%Z
  | VStr x, VStr y => bool_decide (x = y)
  | VObj x, VObj y => bool_decide (x = y)
  | VObj _, VStr y => bool_decide (object_Object = y)
  | VStr x, VObj _ => bool_decide (x = object_Object)
  | _, _ =>
      match ToNumber a, ToNumber b with
      | Some x, Some y => (x =? y)%Z
      | _, _ => false
      end
  end.

(** [a != b]. *)
Definition loose_neq (a b : JsValue) : bool := negb (loose_eq a b).
End Coercions.

(** [arr.indexOf(v)] on an array of string literals: the first index whose
    element is [=== v], or [-1]. *)
Fixpoint indexOf_from (arr : list string) (v : JsValue) (i : Z) : Z :=
  match arr with
  | [] => -1
  | x :: rest => if strict_eq (VStr x) v then i else indexOf_from rest v (i + 1)
  end.

Definition indexOf (arr : list string) (v : JsValue) : Z := indexOf_from arr v 0.

(** ** Constants of the [Roll20Object] class *)

Module TYPES.
Definition CAMPAIGN : string := "campaign".
Definition GRAPHIC : string := "graphic".
Definition TEXT : string := "text".
Definition PATH : string := "path".
Definition CHARACTER : string := "character".
Definition ABILITY : string := "ability".
Definition ATTRIBUTE : string := "attribute".
Definition HANDOUT : string := "handout".
Definition ROLLABLE_TABLE : string := "rollabletable".
Definition TABLE_ITEM : string := "tableitem".
Definition MACRO : string := "macro".
Definition PAGE : string := "page".
Definition PLAYER : string := "player".
Definition DECK : string := "deck".
Definition CARD : string := "card".
Definition HAND : string := "hand".
Definition CUSTOM_FX : string := "custfx".
Definition JUKEBOX_TRACK : string := "jukeboxtrack".
End TYPES.

Definition ASYNC_TYPES : list string := [TYPES.CHARACTER; TYPES.HANDOUT].

Definition ASYNC_FIELDS : list string := ["notes"; "gmnotes"; "bio"].

Definition IMMUTABLE_KEYS : list string := ["_id"; "id"; "_type"; "type"].

(** The messages of the two errors the class throws. *)
Definition dquote : string := String "034"%char EmptyString.

Definition callback_required : string :=
  "Callback required to get key " ++ dquote ++ "#{key}" ++ dquote ++ ".".

Definition not_an_attribute : string :=
  "Can't call setWithWorker on non-attribute objects.".

(** The channel drained by [_fireEvent]. *)
Definition sheetWorkerCompleted : string := "sheetWorkerCompleted".

(** The names every ordinary object inherits from [Object.prototype]: for
    such a name [o[name]] is not [undefined] even when [o] has no property
    of its own under it. *)
Definition Object_prototype_names : list string :=
  [ "constructor"; "hasOwnProperty"; "isPrototypeOf"; "propertyIsEnumerable";
    "toLocaleString"; "toString"; "valueOf"; "__proto__";
    "__defineGetter__"; "__defineSetter__"; "__lookupGetter__";
    "__lookupSetter__" ].

(** The messages of the errors the runtime throws when a member inherited
    from [Object.prototype] is used as a handler array. *)
Definition forEach_is_not_a_function : string := "handlers.forEach is not a function".

Definition push_is_not_a_function : string :=
  "MOCKS._handlers[eventName].push is not a function".

(** ** The store *)

(** The field bag [_obj] of an instance. *)
Abbreviation Bag := (gmap string JsValue).

(** A batch of changes, in [Object.keys] order. *)
Abbreviation Batch := (list (string * JsValue)).

(** [changes[key]]. *)
Fixpoint batch_get (changes : Batch) (key : string) : JsValue :=
  match changes with
  | [] => VUndefined
  | (k, v) :: rest => if bool_decide (k = key) then v else batch_get rest key
  end.

(** A [Roll20Object] instance is named by its address. *)
Abbreviation Roll20Object := nat.

(** What was thrown. *)
Inductive Exn : Type :=
  | Error (msg : string)
  | ReferenceError (name : string)
  | TypeError (msg : string)
  | Thrown (v : JsValue).

(** One call into the logger. *)
Inductive LogLevel : Type := TRACE | INFO | WARN | ERROR.

Inductive LogMessage : Type :=
  | MayNotSetKey (key : string)
  | CantRemove (id : JsValue)
  | FireEvent (eventName : string) (rest : list JsValue)
  | FiringEvent (n : string) (rest : list JsValue)
  | HandlerSet (eventName : string)
  | OnSheetWorkerCompletedCalled
  | FoundRoll20 (key : string)
  | NotFoundInstallingMock (key : string)
  | NoMockFound (key : string)
  | UsingMocked (key : string)
  | WrapperFound (key : string).

Abbreviation LogEntry := (LogLevel * LogMessage)%type.

Section Library.
Context `{JsRuntime}.

(** The functions a script hands to [on] and [onSheetWorkerCompleted].
    They are stored in the registry, so the store refers to them by a
    name of type [Handler]; [run] below gives what calling one does. *)
Variable Handler : Type.

(** The mutable state of one library instance. *)
Record World : Type := mkWorld {
  (** [Roll20Object.pool]: key to instance. *)
  pool : gmap string Roll20Object;
  (** The [_obj] of every instance constructed so far. *)
  heap : gmap Roll20Object Bag;
  (** [MOCKS._handlers]: channel name to handler array. *)
  _handlers : gmap string nat;
  (** The handler arrays, by address. *)
  arrays : gmap nat (list Handler);
  (** The calls made into the logger, oldest first. *)
  console : list LogEntry;
}.

Definition set_pool (f : gmap string Roll20Object → gmap string Roll20Object)
    (w : World) : World :=
  mkWorld (f (pool w)) (heap w) (_handlers w) (arrays w) (console w).
Definition set_heap (f : gmap Roll20Object Bag → gmap Roll20Object Bag)
    (w : World) : World :=
  mkWorld (pool w) (f (heap w)) (_handlers w) (arrays w) (console w).
Definition set_handlers (f : gmap string nat → gmap string nat)
    (w : World) : World :=
  mkWorld (pool w) (heap w) (f (_handlers w)) (arrays w) (console w).
Definition set_arrays (f : gmap nat (list Handler) → gmap nat (list Handler))
    (w : World) : World :=
  mkWorld (pool w) (heap w) (_handlers w) (f (arrays w)) (console w).
Definition set_console (f : list LogEntry → list LogEntry) (w : World) : World :=
  mkWorld (pool w) (heap w) (_handlers w) (arrays w) (f (console w)).

(** The state of a freshly created instance of the library. *)
Definition initial : World := mkWorld ∅ ∅ ∅ ∅ [].

(** *** The monad *)

Inductive Outcome (A : Type) : Type :=
  | Normal (a : A) (w : World)
  | Throw (e : Exn) (w : World).
Arguments Normal {A} a w.
Arguments Throw {A} e w.

Definition M (A : Type) : Type := World → Outcome A.

#[global] Instance M_ret : MRet M := λ A a w, Normal a w.
#[global] Instance M_bind : MBind M := λ A B f m w,
  match m w with
  | Normal a w' => f a w'
  | Throw e w' => Throw e w'
  end.

Definition throw {A} (e : Exn) : M A := λ w, Throw e w.
Definition gets {A} (f : World → A) : M A := λ w, Normal (f w) w.
Definition modify (f : World → World) : M unit := λ w, Normal tt (f w).

(** The store an outcome ends in. *)
Definition final {A} (o : Outcome A) : World :=
  match o with Normal _ w => w | Throw _ w => w end.

(** The logger. *)
Definition emit (level : LogLevel) (msg : LogMessage) : M unit :=
  modify (set_console (λ c, (c ++ [(level, msg)])%list)).
Definition trace := emit TRACE.
Definition info := emit INFO.
Definition log := info.
Definition warn := emit WARN.
Definition error := emit ERROR.

(** [keys.forEach(body)]. *)
Fixpoint forEach {A} (xs : list A) (body : A → M unit) : M unit :=
  match xs with
  | [] => mret tt
  | x :: rest => body x ;; forEach rest body
  end.

(** *** [class Roll20Object] *)

(** [this._obj]. *)
Definition _obj (this : Roll20Object) (w : World) : Bag := heap w !!! this.

(** [this._obj[key]]. *)
Definition field (this : Roll20Object) (key : string) (w : World) : JsValue :=
  default VUndefined (_obj this w !! key).

(** [this._obj[key] = v].  For the key [__proto__], when the bag has no
    field of its own under it, the assignment goes to the setter inherited
    from [Object.prototype]: no field is stored (a primitive [v] is
    ignored; an object or [null] becomes the prototype of the bag, which
    its own fields do not show). *)
Definition assign (this : Roll20Object) (key : string) (v : JsValue) : M unit :=
  modify (λ w,
    if bool_decide (key = "__proto__" ∧ _obj this w !! key = None) then w
    else set_heap <[this := <[key := v]> (_obj this w)]> w).

(** [constructor(obj)].  [uuid] is what [util.uuid()] returns if it is
    called; the instance gets an address no earlier instance has. *)
Definition new_Roll20Object (uuid : string) (obj : Bag) : M Roll20Object :=
  this ← gets (λ w, fresh (dom (heap w)));
  modify (set_heap <[this := obj]>) ;;
  _type ← gets (field this "_type");
  type ← gets (field this "type");
  assign this "_type" (js_or _type type) ;;
  _id ← gets (field this "_id");
  assign this "_id" (js_or _id (VStr uuid)) ;;
  _id ← gets (field this "_id");
  modify (set_pool <[ToString _id := this]>) ;;
  mret this.

(** [get id()]. *)
Definition id (this : Roll20Object) : M JsValue := gets (field this "_id").

(** [get(key, cb?)]. *)
Definition get (this : Roll20Object) (key : string)
    (cb : option (JsValue → M JsValue)) : M JsValue :=
  _type ← gets (field this "_type");
  (if bool_decide (indexOf ASYNC_TYPES _type > -1)%Z then
     if bool_decide (indexOf ASYNC_FIELDS (VStr key) > -1)%Z then
       if cb is None then throw (Error callback_required)
       else mret tt
     else mret tt
   else mret tt) ;;
  value ← gets (field this key);
  match cb with
  | Some cb => cb value
  | None => mret value
  end.

(** [set(changes)] and [set(key, value)]. *)
Definition set (this : Roll20Object) (changesOrKey : string + Batch)
    (value : JsValue) : M unit :=
  let allChanges : Batch :=
    match changesOrKey with
    | inl key => [(key, value)]
    | inr changes => changes
    end in
  forEach (allChanges.*1) (λ key,
    if bool_decide (indexOf IMMUTABLE_KEYS (VStr key) > -1)%Z then
      error (MayNotSetKey key)
    else
      assign this key (batch_get allChanges key)).

(** [remove()]; the result is [this], or [undefined] on the early return. *)
Definition remove (this : Roll20Object) : M (option Roll20Object) :=
  this_id ← id this;
  occupant ← gets (λ w, pool w !! ToString this_id);
  if bool_decide (occupant = Some this) then
    error (CantRemove this_id) ;;
    mret None
  else
    modify (set_pool (delete (ToString this_id))) ;;
    mret (Some this).

(** *** The store queries of [MOCKS] *)

(** [createObj(type, obj)]: the initializer is the fresh object
    [{...obj, type}]. *)
Definition createObj (uuid : string) (type : string) (obj : Bag) : M Roll20Object :=
  let initializer : Bag := <["type" := VStr type]> obj in
  new_Roll20Object uuid initializer.

(** [getAllObjs()].  The order in which [Object.keys] lists the pool is
    not modelled: the result is meant up to order. *)
Definition getAllObjs : M (list Roll20Object) :=
  gets (λ w, (map_to_list (pool w)).*2).

(** [arr.filter(cb)]. *)
Fixpoint filter_cb (cb : Roll20Object → M bool) (arr : list Roll20Object)
    : M (list Roll20Object) :=
  match arr with
  | [] => mret []
  | x :: rest =>
      keep ← cb x;
      kept ← filter_cb cb rest;
      mret (if keep : bool then x :: kept else kept)
  end.

(** [filterObjs(cb)]. *)
Definition filterObjs (cb : Roll20Object → M bool) : M (list Roll20Object) :=
  arr ← gets (λ w, (map_to_list (pool w)).*2);
  filter_cb cb arr.

(** [Object.keys(testObj)] for an instance of the class: its one own
    enumerable property is [_obj] ([id] is an accessor of the prototype,
    [pool] and the constant tables are static). *)
Definition Object_keys_Roll20Object : list string := ["_obj"].

(** [testObj[key]] for [key] among [Object_keys_Roll20Object]. *)
Definition own_property (testObj : Roll20Object) (key : string) : JsValue :=
  if bool_decide (key = "_obj") then VObj testObj else VUndefined.

(** [v.toString()]. *)
Definition toString_method (v : JsValue) : M string :=
  match v with
  | VUndefined | VNull => throw (TypeError "Cannot read properties of undefined")
  | _ => mret (ToString v)
  end.

(** The arrow function [findObjs] hands to [filterObjs]; [found] is the
    variable the inner [forEach] updates. *)
Fixpoint findObjs_keys (obj : Bag) (caseInsensitive : bool)
    (testObj : Roll20Object) (keys : list string) (found : bool) : M bool :=
  match keys with
  | [] => mret found
  | key :: rest =>
      let testValue := own_property testObj key in
      let objValue := default VUndefined (obj !! key) in
      found ←
        (if found && caseInsensitive then
           if typeof_string objValue || typeof_string testValue then
             t ← toString_method testValue;
             o ← toString_method objValue;
             mret (if bool_decide (toLowerCase t ≠ toLowerCase o) then false else found)
           else mret found
         else mret found);
      let found := if found && loose_neq testValue objValue then false else found in
      findObjs_keys obj caseInsensitive testObj rest found
  end.

Definition findObjs_test (obj : Bag) (caseInsensitive : bool)
    (testObj : Roll20Object) : M bool :=
  findObjs_keys obj caseInsensitive testObj Object_keys_Roll20Object true.

(** Reading a [const] inside its own initializer: the binding is still in
    its temporal dead zone. *)
Definition uninitialized {A} (name : string) : M A :=
  throw (ReferenceError name).

(** [findObjs(obj, { caseInsensitive })].  Its first statement is
    [const filterObjs = filterObjs || MOCKS.filterObjs]: the right-hand
    [filterObjs] is the constant being declared, not an outer binding, and
    reading it throws.  (A build that lowers [const] to [var] would read
    [undefined] there and go on with [MOCKS.filterObjs].) *)
Definition findObjs (obj : Bag) (caseInsensitive : bool) : M (list Roll20Object) :=
  own ← uninitialized "filterObjs";
  let filterObjs := if own is Some f then f else filterObjs in
  filterObjs (findObjs_test obj caseInsensitive).

(** *** The event bus *)

(** What calling a handler with the given arguments does. *)
Variable run : Handler → list JsValue → M unit.

(** [[]]: a new array. *)
Definition new_array (elems : list Handler) : M nat :=
  a ← gets (λ w, fresh (dom (arrays w)));
  modify (set_arrays <[a := elems]>) ;;
  mret a.

(** [arr.push(handler)]. *)
Definition push (a : nat) (handler : Handler) : M unit :=
  modify (set_arrays (λ m, <[a := (default [] (m !! a) ++ [handler])%list]> m)).

(** The handlers registered under a name. *)
Definition registered (name : string) (w : World) : list Handler :=
  match _handlers w !! name with
  | Some a => default [] (arrays w !! a)
  | None => []
  end.

(** [handlers.forEach((handler) => handler(...rest))] from index [k], [n]
    indices to go.  The number of indices is fixed when the loop starts;
    each element is read when its turn comes, and a missing one is
    skipped.  The result lists the calls made, in order. *)
Fixpoint forEach_handler (a : nat) (rest : list JsValue) (k n : nat)
    : M (list (Handler * list JsValue)) :=
  match n with
  | O => mret []
  | S n' =>
      handler ← gets (λ w, arrays w !! a ≫= (.!! k));
      match handler with
      | Some handler =>
          run handler rest ;;
          calls ← forEach_handler a rest (S k) n';
          mret ((handler, rest) :: calls)
      | None => forEach_handler a rest (S k) n'
      end
  end.

(** [const handlers = MOCKS._handlers[n] || []; handlers.forEach(...)].
    When the registry has no array of its own under [n] and [n] names a
    member of [Object.prototype], the lookup finds that member: it is
    truthy, so it is what [handlers] holds, and it has no [forEach]. *)
Definition call_handlers (n : string) (rest : list JsValue)
    : M (list (Handler * list JsValue)) :=
  handlers ← gets (λ w, _handlers w !! n);
  match handlers with
  | Some a =>
      len ← gets (λ w, length (default [] (arrays w !! a)));
      forEach_handler a rest 0 len
  | None =>
      if bool_decide (n ∈ Object_prototype_names) then
        throw (TypeError forEach_is_not_a_function)
      else mret []
  end.

(** [eventName.split(":")]. *)
Fixpoint split_colon (s : string) : list string :=
  match s with
  | EmptyString => [EmptyString]
  | String c s' =>
      if bool_decide (c = ":"%char) then EmptyString :: split_colon s'
      else match split_colon s' with
           | seg :: segs => String c seg :: segs
           | [] => [String c EmptyString]
           end
  end.

(** [subEvents.join(":")]. *)
Definition join_colon (subEvents : list string) : string :=
  String.concat ":" subEvents.

(** The [while (subEvents.length)] loop of [_fireEvent], with [n] the
    length of [subEvents]: each round fires the joined name, then pops. *)
Fixpoint cascade (subEvents : list string) (rest : list JsValue) (n : nat)
    : M (list (Handler * list JsValue)) :=
  match n with
  | O => mret []
  | S n' =>
      let name := join_colon (take n subEvents) in
      info (FiringEvent name rest) ;;
      calls ← call_handlers name rest;
      more ← cascade subEvents rest n';
      mret (calls ++ more)%list
  end.

(** [_fireEvent(eventName, ...rest)].  The result lists the handler
    calls it made, in order. *)
Definition _fireEvent (eventName : string) (rest : list JsValue)
    : M (list (Handler * list JsValue)) :=
  trace (FireEvent eventName rest) ;;
  if bool_decide (eventName = sheetWorkerCompleted) then
    calls ← call_handlers eventName rest;
    a ← new_array [];
    modify (set_handlers <[eventName := a]>) ;;
    mret calls
  else
    let subEvents := split_colon eventName in
    cascade subEvents rest (length subEvents).

(** [MOCKS._handlers[name] = MOCKS._handlers[name] || []]: what the name
    holds afterwards, an array or ([None]) the member of
    [Object.prototype] it names.  Storing that member back under the name
    changes nothing a later read of the name sees, and is not recorded. *)
Definition ensure_array (name : string) : M (option nat) :=
  handlers ← gets (λ w, _handlers w !! name);
  match handlers with
  | Some a => mret (Some a)
  | None =>
      if bool_decide (name ∈ Object_prototype_names) then mret None
      else
        a ← new_array [];
        modify (set_handlers <[name := a]>) ;;
        mret (Some a)
  end.

(** [MOCKS._handlers[name].push(handler)], on what [ensure_array] left
    under the name: a member of [Object.prototype] has no [push]. *)
Definition push_to (held : option nat) (handler : Handler) : M unit :=
  match held with
  | Some a => push a handler
  | None => throw (TypeError push_is_not_a_function)
  end.

(** [on(eventName, handler)]. *)
Definition on (eventName : string) (handler : Handler) : M unit :=
  held ← ensure_array eventName;
  push_to held handler ;;
  log (HandlerSet eventName).

(** [onSheetWorkerCompleted(cb)]. *)
Definition onSheetWorkerCompleted (cb : Handler) : M unit :=
  info OnSheetWorkerCompletedCalled ;;
  held ← ensure_array sheetWorkerCompleted;
  push_to held cb.

(** [setWithWorker(changes)]. *)
Definition setWithWorker (this : Roll20Object) (changes : Batch) : M unit :=
  _type ← gets (field this "_type");
  if negb (strict_eq _type (VStr "attribute")) then
    throw (Error not_an_attribute)
  else
    forEach (changes.*1) (λ key,
      if bool_decide (indexOf IMMUTABLE_KEYS (VStr key) > -1)%Z then
        error (MayNotSetKey key)
      else
        assign this key (batch_get changes key)) ;;
    _fireEvent sheetWorkerCompleted [] ;;
    mret tt.
End Library.

Arguments mkWorld {Handler} _ _ _ _ _.
Arguments pool {Handler} _.
Arguments heap {Handler} _.
Arguments _handlers {Handler} _.
Arguments arrays {Handler} _.
Arguments console {Handler} _.
Arguments set_pool {Handler} _ _.
Arguments set_heap {Handler} _ _.
Arguments set_handlers {Handler} _ _.
Arguments set_arrays {Handler} _ _.
Arguments set_console {Handler} _ _.
Arguments initial {Handler}.
Arguments Normal {Handler A} _ _.
Arguments Throw {Handler A} _ _.
Arguments throw {Handler A} _ _.
Arguments gets {Handler A} _ _.
Arguments modify {Handler} _ _.
Arguments final {Handler A} _.
Arguments emit {Handler} _ _ _.
Arguments trace {Handler} _ _.
Arguments info {Handler} _ _.
Arguments log {Handler} _ _.
Arguments warn {Handler} _ _.
Arguments error {Handler} _ _.
Arguments forEach {Handler A} _ _ _.
Arguments _obj {Handler} _ _.
Arguments field {Handler} _ _ _.
Arguments assign {Handler} _ _ _ _.
Arguments new_Roll20Object {_ Handler} _ _ _.
Arguments id {Handler} _ _.
Arguments get {Handler} _ _ _ _.
Arguments set {Handler} _ _ _ _.
Arguments remove {_ Handler} _ _.
Arguments createObj {_ Handler} _ _ _ _.
Arguments getAllObjs {Handler} _.
Arguments filter_cb {Handler} _ _ _.
Arguments filterObjs {Handler} _ _.
Arguments toString_method {_ Handler} _ _.
Arguments findObjs_keys {_ Handler} _ _ _ _ _ _.
Arguments findObjs_test {_ Handler} _ _ _ _.
Arguments uninitialized {Handler A} _ _.
Arguments findObjs {_ Handler} _ _ _.
Arguments new_array {Handler} _ _.
Arguments push {Handler} _ _ _.
Arguments registered {Handler} _ _.
Arguments forEach_handler {Handler} _ _ _ _ _ _.
Arguments call_handlers {Handler} _ _ _ _.
Arguments cascade {Handler} _ _ _ _ _.
Arguments _fireEvent {Handler} _ _ _ _.
Arguments ensure_array {Handler} _ _.
Arguments push_to {Handler} _ _ _.
Arguments on {Handler} _ _ _.
Arguments onSheetWorkerCompleted {Handler} _ _.
Arguments setWithWorker {Handler} _ _ _ _.

(** ** The binding layer *)

Section Binding.
(** What a capability name can be bound to: a function of the host, a
    mock, a wrapped function.  [None] stands for [undefined]. *)
Variable Fn : Type.

(** [{...base, ...overrides}]: an overridden key keeps its place, a new
    key goes to the end. *)
Fixpoint spread_put {X} (base : list (string * X)) (k : string) (x : X)
    : list (string * X) :=
  match base with
  | [] => [(k, x)]
  | (k', x') :: rest =>
      if bool_decide (k' = k) then (k, x) :: rest
      else (k', x') :: spread_put rest k x
  end.

Definition spread {X} (base overrides : list (string * X)) : list (string * X) :=
  foldl (λ acc kx, spread_put acc kx.1 kx.2) base overrides.

(** [obj[key]] for an object given by its entries. *)
Fixpoint entry {X} (obj : list (string * X)) (key : string) : option X :=
  match obj with
  | [] => None
  | (k, x) :: rest => if bool_decide (k = key) then Some x else entry rest key
  end.

(** The keys of the object literal [MOCKS], in source order. *)
Definition MOCK_NAMES : list string :=
  [ "_"; "state"; "Campaign"; "createObj"; "filterObjs"; "findObjs";
    "getAllObjs"; "getAttrByName"; "log"; "on"; "onSheetWorkerCompleted";
    "playerIsGM"; "playJukeboxPlaylist"; "randomInteger"; "sendChat";
    "sendPing"; "spawnFx"; "spawnFxBetweenPoints"; "spawnFxWithDefinition";
    "stopJukeboxPlaylist"; "toBack"; "toFront"; "_campaign"; "_handlers" ].

(** The value the literal gives each of those keys ([_campaign] starts
    [undefined]). *)
Variable mock : string → option Fn.

(** The wrapper the literal [WRAPPERS] gives to [createObj]. *)
Variable createObj_wrapper : option Fn → option Fn.

(** [cfg.mocks] and [cfg.wrappers]. *)
Variable cfg_mocks : list (string * option Fn).
Variable cfg_wrappers : list (string * (option Fn → option Fn)).

(** The object [util.getScope()] returns, as the names it defines (those
    whose [typeof] is not ["undefined"]). *)
Variable topLevelScope : gmap string Fn.

Definition MOCKS : list (string * option Fn) :=
  spread ((λ k, (k, mock k)) <$> MOCK_NAMES) cfg_mocks.

Definition WRAPPERS : list (string * (option Fn → option Fn)) :=
  spread [("createObj", createObj_wrapper)] cfg_wrappers.

(** [_api] while it is filled, with the log of the decisions taken. *)
Record Binding : Type := mkBinding {
  _api : gmap string (option Fn);
  decisions : list LogEntry;
}.

Definition say (msg : LogMessage) (b : Binding) : Binding :=
  mkBinding (_api b) (decisions b ++ [(INFO, msg)])%list.

Definition bind (key : string) (v : option Fn) (b : Binding) : Binding :=
  mkBinding (<[key := v]> (_api b)) (decisions b).

(** [_api[key]]. *)
Definition bound (b : Binding) (key : string) : option Fn :=
  default None (_api b !! key).

(** The body of [Object.keys(MOCKS).forEach((k) => ...)]. *)
Definition bind_key (b : Binding) (key : string) : Binding :=
  let b :=
    match topLevelScope !! key with
    | Some f =>
        bind key (Some f) (say (FoundRoll20 key) b)
    | None =>
        let b := say (NotFoundInstallingMock key) b in
        let m := default None (entry MOCKS key) in
        let b := if m is None then say (NoMockFound key) b else b in
        say (UsingMocked key) (bind key m b)
    end in
  match entry WRAPPERS key with
  | Some wrapper => bind key (wrapper (bound b key)) (say (WrapperFound key) b)
  | None => b
  end.

(** The loop that fills [_api]. *)
Definition bind_all : Binding :=
  foldl bind_key (mkBinding ∅ []) (MOCKS.*1).
End Binding.

Arguments spread_put {X} _ _ _.
Arguments spread {X} _ _.
Arguments entry {X} _ _.
Arguments mkBinding {Fn} _ _.
Arguments _api {Fn} _.
Arguments decisions {Fn} _.
Arguments say {Fn} _ _.
Arguments bind {Fn} _ _ _.
Arguments bound {Fn} _ _.

Arguments MOCKS {Fn} _ _.
Arguments WRAPPERS {Fn} _ _.
Arguments bind_key {Fn} _ _ _ _ _ _ _.
Arguments bind_all {Fn} _ _ _ _ _.

(** ** Vocabulary of the statements *)

Section Vocabulary.
Context {Handler : Type}.
Implicit Types (w : World Handler) (this : Roll20Object) (key : string).

(** The kind of an instance is one with asynchronous fields. *)
Definition async_type this w : Prop :=
  field this "_type" w = VStr "character" ∨ field this "_type" w = VStr "handout".

(** The field is one of the asynchronous fields. *)
Definition async_field key : Prop :=
  key = "notes" ∨ key = "gmnotes" ∨ key = "bio".

(** What [set] and [setWithWorker] do with one key of a batch. *)
Definition write_key this (changes : Batch) key : M Handler unit :=
  if bool_decide (indexOf IMMUTABLE_KEYS (VStr key) > -1)%Z then
    error (MayNotSetKey key)
  else
    assign this key (batch_get changes key).

(** The diagnostics a batch earns: one per immutable key, in key order. *)
Definition rejections (keys : list string) : list LogEntry :=
  (λ key, (ERROR, MayNotSetKey key)) <$> filter (.∈ IMMUTABLE_KEYS) keys.

(** An assignment to the key stores a field of the bag: so it is for
    every key but [__proto__], and for [__proto__] too when the bag already
    has a field of its own under it. *)
Definition stores this key w : Prop :=
  key ≠ "__proto__" ∨ is_Some (_obj this w !! key).

(** What writing the keys [keys] of [changes] into [this] leaves behind. *)
Record written this (changes : Batch) (keys : list string) w w' : Prop := {
  written_pool : pool w' = pool w;
  written_handlers : _handlers w' = _handlers w;
  written_arrays : arrays w' = arrays w;
  written_console : console w' = (console w ++ rejections keys)%list;
  written_others : ∀ other, other ≠ this → heap w' !! other = heap w !! other;
  written_immutable : ∀ key, key ∈ IMMUTABLE_KEYS →
    _obj this w' !! key = _obj this w !! key;
  written_untouched : ∀ key, key ∉ keys →
    _obj this w' !! key = _obj this w !! key;
  written_changed : ∀ key, key ∈ keys → key ∉ IMMUTABLE_KEYS → stores this key w →
    _obj this w' !! key = Some (batch_get changes key);
  written_setter : ∀ key, ¬ stores this key w → _obj this w' !! key = None;
}.

(** Every handler array of [w] is still there in [w'], with at most new
    elements pushed at its end. *)
Definition grows w w' : Prop :=
  ∀ a l, arrays w !! a = Some l → ∃ l', arrays w' !! a = Some (l ++ l')%list.

(** The registry is the same in both stores. *)
Definition same_registry w w' : Prop :=
  _handlers w' = _handlers w ∧ arrays w' = arrays w.

(** The calls that invoking [hs] with [rest] amounts to. *)
Definition calls_of (rest : list JsValue) (hs : list Handler)
    : list (Handler * list JsValue) :=
  (λ h, (h, rest)) <$> hs.

(** The names an event reaches, most specific first: the joined prefixes
    of its segments. *)
Definition levels_of (subEvents : list string) (n : nat) : list string :=
  (λ k, join_colon (take k subEvents)) <$> reverse (seq 1 n).

Definition levels (eventName : string) : list string :=
  levels_of (split_colon eventName) (length (split_colon eventName)).

(** The calls a fire makes when it visits [names] in turn. *)
Definition cascade_calls (rest : list JsValue) w (names : list string)
    : list (Handler * list JsValue) :=
  concat ((λ name, calls_of rest (registered name w)) <$> names).

(** The string has no separator in it. *)
Fixpoint no_colon (s : string) : bool :=
  match s with
  | EmptyString => true
  | String c s' => negb (bool_decide (c = ":"%char)) && no_colon s'
  end.

(** The first segment of the name, the last level a fire reaches, is no
    member of [Object.prototype].  (The longer levels have a colon in
    them, and no member has.) *)
Definition plain_channel (eventName : string) : Prop :=
  ∀ first, head (split_colon eventName) = Some first →
    first ∉ Object_prototype_names.

Section Plans.
(** What calling a handler does. *)
Variable run : Handler → list JsValue → M Handler unit.

(** The handlers [hs] called one after the other with [rest], each on the
    store the one before it left. *)
Definition run_each (rest : list JsValue) (hs : list Handler) : M Handler unit :=
  forEach hs (λ h, run h rest).

(** What a fire of [sheetWorkerCompleted] amounts to when [hs] are the
    callbacks queued: the trace line, the callbacks in turn, a new empty
    array in place of the queue. *)
Definition drain (rest : list JsValue) (hs : list Handler)
    : M Handler (list (Handler * list JsValue)) :=
  trace (FireEvent sheetWorkerCompleted rest) ;;
  run_each rest hs ;;
  a ← new_array [];
  modify (set_handlers <[sheetWorkerCompleted := a]>) ;;
  mret (calls_of rest hs).

(** The handlers [w0] has registered under [name], called in turn.  Where
    [w0] has no array of its own under a name that [Object.prototype] has
    a member for, the member is found in place of an array, and the call
    of its [forEach] throws. *)
Definition run_registered (rest : list JsValue) w0 (name : string)
    : M Handler unit :=
  if bool_decide (name ∈ Object_prototype_names ∧ _handlers w0 !! name = None) then
    throw (TypeError forEach_is_not_a_function)
  else run_each rest (registered name w0).

(** One level of a cascade: the line [info] logs for it, then the
    handlers registered under the name. *)
Definition visit (rest : list JsValue) w0 (name : string) : M Handler unit :=
  info (FiringEvent name rest) ;;
  run_registered rest w0 name.

(** What a fire of an ordinary channel amounts to when it reaches the
    levels [names] in turn. *)
Definition visit_all (eventName : string) (rest : list JsValue) w0
    (names : list string) : M Handler (list (Handler * list JsValue)) :=
  trace (FireEvent eventName rest) ;;
  forEach names (visit rest w0) ;;
  mret (cascade_calls rest w0 names).
End Plans.
End Vocabulary.

Section BindingVocabulary.
Context {Fn : Type}.
Variable mock : string → option Fn.
Variable createObj_wrapper : option Fn → option Fn.
Variable cfg_mocks : list (string * option Fn).
Variable cfg_wrappers : list (string * (option Fn → option Fn)).
Variable topLevelScope : gmap string Fn.

(** The host's value for the name if it defines one, the mock otherwise. *)
Definition resolved (key : string) : option Fn :=
  match topLevelScope !! key with
  | Some f => Some f
  | None => default None (entry (MOCKS mock cfg_mocks) key)
  end.

(** The wrapper registered for the name, applied; the value itself when
    there is none. *)
Definition wrapped (key : string) (v : option Fn) : option Fn :=
  match entry (WRAPPERS createObj_wrapper cfg_wrappers) key with
  | Some wrapper => wrapper v
  | None => v
  end.
End BindingVocabulary.

(** ** Fixtures for closed examples *)

(** A runtime good enough for the ASCII strings and small numerals of the
    examples below. *)
Definition lower_ascii (c : ascii) : ascii :=
  let n := nat_of_ascii c in
  if (65 <=? n)%nat && (n <=? 90)%nat then ascii_of_nat (n + 32) else c.

Fixpoint lower_string (s : string) : string :=
  match s with
  | EmptyString => EmptyString
  | String c s' => String (lower_ascii c) (lower_string s')
  end.

Fixpoint digits_value (s : string) (acc : Z) : option Z :=
  match s with
  | EmptyString => Some acc
  | String c s' =>
      let n := nat_of_ascii c in
      if (48 <=? n)%nat && (n <=? 57)%nat
      then digits_value s' (10 * acc + Z.of_nat (n - 48))%Z
      else None
  end.

#[global] Instance reference_runtime : JsRuntime := {|
  StringToNumber := λ s, digits_value s 0%Z;
  NumberToString := λ n, pretty n;
  toLowerCase := lower_string;
|}.

(** A handler that stores its first argument in a field of an instance and
    leaves the registry alone. *)
Inductive Quiet : Type :=
  | Store (this : Roll20Object) (key : string).

Definition run_quiet (h : Quiet) (rest : list JsValue) : M Quiet unit :=
  match h with
  | Store this key => set this (inl key) (default VUndefined (head rest))
  end.

(** A handler that subscribes another handler when it is called: with
    [on], to a channel below [late], or with [onSheetWorkerCompleted]. *)
Inductive Script : Type :=
  | Stop
  | Subscribe (eventName : string) (next : Script)
  | SubscribeOnce (next : Script).

Definition run_script (h : Script) (rest : list JsValue) : M Script unit :=
  match h with
  | Stop => mret tt
  | Subscribe eventName next => on ("late:" +:+ eventName) next
  | SubscribeOnce next => onSheetWorkerCompleted next
  end.

(** The store after [createObj("character", {})] in a new library
    instance, with [util.uuid()] returning [x-1]. *)
Definition one_character `{JsRuntime} {Handler} : Outcome Handler Roll20Object :=
  createObj "x-1" "character" ∅ initial.

(** The pattern [{ type: "character" }]. *)
Definition type_character : Bag := {["type" := VStr "character"]}.

(** Two callbacks waiting on [sheetWorkerCompleted]; the second subscribes
    a third when it is called. *)
Definition two_waiting : World Script :=
  final ((onSheetWorkerCompleted Stop ;;
          onSheetWorkerCompleted (SubscribeOnce (Subscribe "late" Stop))) initial).

(** Handlers on [chat:message], [chat] and [z], each storing what it
    hears in a field of its own of instance [0]. *)
Definition three_channels : World Quiet :=
  final ((createObj "x-1" "character" ∅ ;;
          on "chat:message" (Store 0 "heard_message") ;;
          on "chat" (Store 0 "heard_chat") ;;
          on "z" (Store 0 "heard_z")) initial).

(** A host that defines nothing, the default [cfg.mocks], and a wrapper
    for [sendChat] in [cfg.wrappers]; a bound value is described by a
    string. *)
Definition demo_mock (key : string) : option string :=
  if bool_decide (key = "_campaign") then None else Some ("mock " +:+ key).

Definition demo_wrapper (name : string) (v : option string) : option string :=
  Some (name +:+ "(" +:+ default "undefined" v +:+ ")").

Definition demo_api : Binding string :=
  bind_all demo_mock (demo_wrapper "logged") []
    [("sendChat", demo_wrapper "checked")] ∅.

(** ** The rest of the library *)

(** *** [Campaign], [_setAsGM] and [playerIsGM] *)

Section Singletons.
Context `{JsRuntime} {Handler : Type}.

(** [Campaign()].  [_campaign] is [MOCKS._campaign] when the call starts
    ([None] for [undefined]); the result carries it as the call leaves it. *)
Definition Campaign (uuid : string) (_campaign : option Roll20Object)
    : M Handler (Roll20Object * option Roll20Object) :=
  match _campaign with
  | Some campaign => mret (campaign, Some campaign)
  | None =>
      campaign ← new_Roll20Object uuid {["type" := VStr TYPES.CAMPAIGN]};
      mret (campaign, Some campaign)
  end.

End Singletons.

(** [_setAsGM(playerId?)]: the value [_GM] gets. *)
Definition _setAsGM (playerId : JsValue) (_GM : JsValue) : JsValue := playerId.

(** [playerIsGM(playerId)], with [_GM] as it stands. *)
Definition playerIsGM (_GM : JsValue) (playerId : JsValue) : bool :=
  strict_eq _GM playerId.

(** [_GM] after a run of [_setAsGM] calls. *)
Definition _setAsGM_each (playerIds : list JsValue) (_GM : JsValue) : JsValue :=
  foldl (λ _GM playerId, _setAsGM playerId _GM) _GM playerIds.

(** *** The handler registry as the library keeps it *)

Section Registry.
Context {Handler : Type}.

(** No two channel names hold the same array, and every array a name
    holds exists. *)
Definition registry_wf (w : World Handler) : Prop :=
  (∀ n1 n2 a, _handlers w !! n1 = Some a → _handlers w !! n2 = Some a → n1 = n2)
  ∧ (∀ n a, _handlers w !! n = Some a → is_Some (arrays w !! a)).

(** The store a computation ends in has a well-formed registry whenever the
    store it starts in has. *)
Definition keeps {A} (m : M Handler A) : Prop :=
  ∀ w, registry_wf w → registry_wf (final (m w)).

(** One use of the registration and firing functions by a script. *)
Inductive Use : Type :=
  | UseOn (eventName : string) (handler : Handler)
  | UseOnSheetWorkerCompleted (cb : Handler)
  | UseFire (eventName : string) (rest : list JsValue).

Definition use (run : Handler → list JsValue → M Handler unit) (u : Use)
    : M Handler unit :=
  match u with
  | UseOn eventName handler => on eventName handler
  | UseOnSheetWorkerCompleted cb => onSheetWorkerCompleted cb
  | UseFire eventName rest => _fireEvent run eventName rest ;; mret tt
  end.
End Registry.

(** *** [_promote] *)

Section Promote.
Context {Fn : Type}.

(** The keys [_promote] copies: all of [_api] when [keys] is [undefined],
    the one key when it is a string, the listed keys when it is an array. *)
Definition promotionKeys (keys : option (string + list string)) (api : Binding Fn)
    : list string :=
  match keys with
  | None => (map_to_list (_api api)).*1
  | Some (inl key) => [key]
  | Some (inr keys) => keys
  end.

(** [_promote(keys, nameOrNames, scope)], from the point where
    [util.getScope(nameOrNames, scope)] has returned the object [s]; the
    result is [s] as the loop leaves it.  The one [info] call is left out:
    its text joins the keys in [Object.keys] order, which the map does not
    keep. *)
Definition _promote (keys : option (string + list string)) (api : Binding Fn)
    (s : gmap string (option Fn)) : gmap string (option Fn) :=
  foldl (λ s key, <[key := bound api key]> s) s (promotionKeys keys api).
End Promote.

(** *** [basiliskasterisk.util]: the logger *)

Module Logger.

(** The keys of [LOG_LEVELS]. *)
Inductive Level : Type := TRACE | INFO | WARN | ERROR | FATAL.

Definition LOG_LEVELS (level : Level) : Z :=
  match level with
  | TRACE => 1
  | INFO => 10
  | WARN => 25
  | ERROR => 50
  | FATAL => 100
  end.

(** The key as it is spelled in a message. *)
Definition spelling (level : Level) : string :=
  match level with
  | TRACE => "TRACE"
  | INFO => "INFO"
  | WARN => "WARN"
  | ERROR => "ERROR"
  | FATAL => "FATAL"
  end.

(** [LOG_LEVEL_IDENTIFIER]: a key of [LOG_LEVELS], or a number. *)
Inductive LOG_LEVEL_IDENTIFIER : Type :=
  | Key (level : Level)
  | Number (n : Z).

Section Loggers.
(** The functions that print.  [default_emissionFn] is the default of the
    [emissionFn] option: the first of [global.log], [window.log],
    [this.log], [console.log] that exists. *)
Variable EmissionFn : Type.
Variable default_emissionFn : EmissionFn.

(** What [getLogger] closes over. *)
Record Logger : Type := mkLogger {
  logLevel : LOG_LEVEL_IDENTIFIER;
  name : string;
  emissionFn : EmissionFn;
}.

(** [getLogger({ logLevel, name, emissionFn })], each option possibly
    absent. *)
Definition getLogger (logLevel : option LOG_LEVEL_IDENTIFIER) (name : option string)
    (emissionFn : option EmissionFn) : Logger :=
  mkLogger (default (Number (LOG_LEVELS INFO)) logLevel)
           (default "LOG" name)
           (default default_emissionFn emissionFn).

Definition logLevelValue (l : Logger) : Z :=
  match logLevel l with
  | Number n => n
  | Key level => LOG_LEVELS level
  end.

(** [_emit(level)(str, ...rest)]: the call of the emission function it
    makes, if it makes one. *)
Definition _emit (l : Logger) (level : Level) (str : string) (rest : list JsValue)
    : option (EmissionFn * string * list JsValue) :=
  if bool_decide (logLevelValue l ≤ LOG_LEVELS level)%Z then
    Some (emissionFn l, name l ++ " [" ++ spelling level ++ "]: " ++ str, rest)
  else None.

Definition trace (l : Logger) := _emit l TRACE.
Definition info (l : Logger) := _emit l INFO.
Definition warn (l : Logger) := _emit l WARN.
Definition error (l : Logger) := _emit l ERROR.
Definition fatal (l : Logger) := _emit l FATAL.
Definition log (l : Logger) := info l.

(** [child(childName)]. *)
Definition child (l : Logger) (childName : string) : Logger :=
  getLogger (Some (logLevel l)) (Some (name l ++ "." ++ childName)) None.
End Loggers.

Arguments mkLogger {EmissionFn} _ _ _.
Arguments logLevel {EmissionFn} _.
Arguments name {EmissionFn} _.
Arguments emissionFn {EmissionFn} _.
Arguments getLogger {EmissionFn} _ _ _ _.
Arguments logLevelValue {EmissionFn} _.
Arguments _emit {EmissionFn} _ _ _ _.
Arguments trace {EmissionFn} _.
Arguments info {EmissionFn} _.
Arguments warn {EmissionFn} _.
Arguments error {EmissionFn} _.
Arguments fatal {EmissionFn} _.
Arguments log {EmissionFn} _.
Arguments child {EmissionFn} _ _ _.

End Logger.

(** *** [basiliskasterisk.util]: [getScope] *)

Module Scopes.

(** An object all of whose properties hold objects, in property order. *)
#[warnings="-register-all"]
Inductive Scope : Type := Object (props : list (string * Scope)).

Definition props (s : Scope) : list (string * Scope) :=
  match s with Object ps => ps end.

(** [{}]. *)
Definition empty : Scope := Object [].

(** [origin[name]]. *)
Definition prop (origin : Scope) (name : string) : option Scope :=
  entry (props origin) name.

(** [origin[name] = child]. *)
Definition put (origin : Scope) (name : string) (child : Scope) : Scope :=
  Object (spread_put (props origin) name child).

(** [s.split(d)] for a one-character [d]. *)
Fixpoint split_on (d : ascii) (s : string) : list string :=
  match s with
  | EmptyString => [EmptyString]
  | String c s' =>
      if bool_decide (c = d) then EmptyString :: split_on d s'
      else match split_on d s' with
           | seg :: segs => String c seg :: segs
           | [] => [String c EmptyString]
           end
  end.

(** [cfg.scopeDelimiter]; its type is the literal ["."]. *)
Definition scopeDelimiter : ascii := "."%char.

(** The recursion of [getScope] on [names]: [origin] as the call leaves
    it.  A missing property is created empty on the way down. *)
Fixpoint descend (names : list string) (origin : Scope) : Scope :=
  match names with
  | [] => origin
  | name :: names =>
      let origin :=
        if prop origin name is None then put origin name empty else origin in
      put origin name (descend names (default empty (prop origin name)))
  end.

(** [getScope(nameOrNames, origin)]: [origin] as the call leaves it, and
    the place of the returned object in it, as the property names leading
    to it.  (The call [logger.trace] at its head goes to the default
    logger, whose threshold is above [TRACE].) *)
Definition getScope (nameOrNames : string + list string) (origin : Scope)
    : Scope * list string :=
  let names :=
    match nameOrNames with
    | inr names => names
    | inl s => split_on scopeDelimiter s
    end in
  (descend names origin, names).

(** The object reached from [origin] along [path]. *)
Fixpoint reach (path : list string) (origin : Scope) : option Scope :=
  match path with
  | [] => Some origin
  | name :: path => prop origin name ≫= reach path
  end.

(** What a call with no argument passes for [nameOrNames]. *)
Definition no_argument : string + list string := inl EmptyString.

End Scopes.

(** *** More fixtures *)

(** A handler that throws what it is given. *)
Inductive Faulty : Type :=
  | Fine
  | Raise (e : Exn).

Definition run_faulty (h : Faulty) (rest : list JsValue) : M Faulty unit :=
  match h with
  | Fine => mret tt
  | Raise e => throw e
  end.

(** [obj.get("_type") === "character"], as a callback for [filterObjs]. *)
Definition is_character `{JsRuntime} {Handler} (obj : Roll20Object) : M Handler bool :=
  _type ← get obj "_type" None;
  mret (strict_eq _type (VStr "character")).

(** A character and a handout in a new library instance. *)
Definition two_objects : World Quiet :=
  final ((createObj "x-1" "character" ∅ ;;
          createObj "x-2" "handout" {["name" := VStr "Map"]}) initial).

(** [three_channels] with a handler queued on [sheetWorkerCompleted] and
    one on a channel below it. *)
Definition below_completed : World Quiet :=
  final ((on sheetWorkerCompleted (Store 0 "done") ;;
          on "sheetWorkerCompleted:x" (Store 0 "done_x")) three_channels).

(** A failing callback queued before a good one. *)
Definition faulty_queue : World Faulty :=
  final ((onSheetWorkerCompleted (Raise (Error "boom")) ;;
          onSheetWorkerCompleted Fine) initial).


(** An attribute, and a callback waiting on [sheetWorkerCompleted] that
    stores what it hears in the field [done] of the attribute. *)
Definition attribute_waiting : World Quiet :=
  final ((createObj "x-1" "attribute" ∅ ;;
          onSheetWorkerCompleted (Store 0 "done")) initial).


(** *** The scope the binding loop inspects *)

Section HostScope.
Context {Fn : Type}.

(** The host as the library meets it: the object [getScope] starts from
    when it is given no origin ([global] and [window] are shadowed by the
    declarations [var global = global] and [var window = window] of the
    enclosing function, which leave both [undefined], so the origin is
    [this || {}]), and for the object at the end of each path of property
    names from it, the names it defines ([typeof] not ["undefined"]) with
    what they hold.  The origin itself is at the empty path. *)
Variable origin : Scopes.Scope.
Variable members : list string → gmap string Fn.

(** [const topLevelScope = util.getScope()] of the binding loop: the
    names defined by the object the call returns.  An object the call had
    to create defines none. *)
Definition topLevelScope_of : gmap string Fn :=
  let path := (Scopes.getScope Scopes.no_argument origin).2 in
  match Scopes.reach path origin with
  | Some _ => members path
  | None => ∅
  end.
End HostScope.

(** A host whose top-level object defines [sendChat], and nothing under
    the empty name. *)
Definition demo_host_members (path : list string) : gmap string string :=
  if bool_decide (path = []) then {["sendChat" := "host sendChat"]} else ∅.

(** * Properties *)

Local Open Scope list_scope.
Local Open Scope nat_scope.

(** ** The constant tables *)

Lemma indexOf_from_found arr key i :
  (0 ≤ i)%Z → (indexOf_from arr (VStr key) i > -1)%Z ↔ key ∈ arr.
Proof.
  revert i. induction arr as [|x arr IH]; intros i Hi; simpl.
  - split; [lia | by intros ?%elem_of_nil].
  - unfold strict_eq. case_bool_decide as Hx.
    + injection Hx as ->. split; [intros _; left | lia].
    + rewrite IH by lia. split; [by right|].
      intros [->|?]%elem_of_cons; [congruence | done].
Qed.

Lemma indexOf_found arr key : (indexOf arr (VStr key) > -1)%Z ↔ key ∈ arr.
Proof. apply indexOf_from_found. lia. Qed.

Lemma indexOf_not_string arr v :
  (∀ s, v ≠ VStr s) → indexOf arr v = (-1)%Z.
Proof.
  intros Hv. unfold indexOf. generalize 0%Z.
  induction arr as [|x arr IH]; intros i; simpl; [done|].
  unfold strict_eq. case_bool_decide as Hx; [by destruct (Hv x)|]. apply IH.
Qed.

(** ** Entities *)

Section EntityFacts.
Context `{JsRuntime} {Handler : Type}.
Implicit Types (w : World Handler) (this : Roll20Object) (key : string).

Lemma _obj_assign this key v w :
  _obj this (set_heap <[this := <[key := v]> (_obj this w)]> w)
  = <[key := v]> (_obj this w).
Proof. unfold _obj. simpl. by rewrite lookup_total_insert_eq. Qed.

Lemma assign_effect this key v w :
  ∃ w1, assign this key v w = Normal tt w1
    ∧ pool w1 = pool w ∧ _handlers w1 = _handlers w ∧ arrays w1 = arrays w
    ∧ console w1 = console w
    ∧ (∀ other, other ≠ this → heap w1 !! other = heap w !! other)
    ∧ (∀ k, k ≠ key → _obj this w1 !! k = _obj this w !! k)
    ∧ (stores this key w → _obj this w1 !! key = Some v)
    ∧ (¬ stores this key w → _obj this w1 !! key = None)
    ∧ (∀ k, stores this k w1 ↔ stores this k w).
Proof.
  unfold assign, modify, stores. case_bool_decide as Hsetter.
  - destruct Hsetter as [-> Hnone]. exists w. rewrite Hnone.
    split_and!; try done. intros [Hne|[? [=]]]. by destruct Hne.
  - eexists. split; [done|]. rewrite _obj_assign.
    cbn [pool _handlers arrays console heap set_heap].
    assert (key ≠ "__proto__" ∨ is_Some (_obj this w !! key)) as Hstores.
    { destruct (decide (key = "__proto__")) as [->|?]; [|by left]. right.
      destruct (_obj this w !! "__proto__") eqn:Hown; [eauto|]. by destruct Hsetter. }
    split_and!; try done.
    + intros other Hne. by rewrite lookup_insert_ne.
    + intros k Hk. by rewrite lookup_insert_ne.
    + intros _. by rewrite lookup_insert_eq.
    + intros k. destruct (decide (k = key)) as [->|Hk].
      * rewrite lookup_insert_eq. split; [done|]. intros _. right; eauto.
      * by rewrite lookup_insert_ne.
Qed.

Lemma write_keys this changes keys w :
  ∃ w', forEach keys (write_key this changes) w = Normal tt w'
        ∧ written this changes keys w w'.
Proof.
  revert w. induction keys as [|key keys IH]; intros w.
  - exists w. split; [done|]. split; try done.
    + unfold rejections. simpl. by rewrite app_nil_r.
    + by intros ? ?%elem_of_nil.
    + intros k Hk. unfold stores in Hk.
      destruct (_obj this w !! k) eqn:Hown; [|done]. destruct Hk. right. eauto.
  - cbn [forEach]. unfold mbind, M_bind, write_key at 1.
    case_bool_decide as Himm; rewrite indexOf_found in Himm.
    + unfold error, emit, modify.
      destruct (IH (set_console (λ c, c ++ [(ERROR, MayNotSetKey key)]) w))
        as (w' & Hrun & [Hp Hh Ha Hc Ho Hi Hu Hch Hs]).
      exists w'. split; [exact Hrun|]. split; simpl in *; try done.
      * rewrite Hc. unfold rejections. rewrite filter_cons_True by done.
        simpl. by rewrite <- app_assoc.
      * intros k Hk. apply Hu. by intros ?; apply Hk; right.
      * intros k [->|Hk]%elem_of_cons Hn Hst; [done|]. by apply Hch.
    + destruct (assign_effect this key (batch_get changes key) w)
        as (w1 & Hassign & Hp1 & Hh1 & Ha1 & Hc1 & Ho1 & Hk1 & Hst1 & Hns1 & Hiff).
      rewrite Hassign.
      destruct (IH w1) as (w' & Hrun & [Hp Hh Ha Hc Ho Hi Hu Hch Hs]).
      exists w'. split; [exact Hrun|]. split.
      * congruence.
      * congruence.
      * congruence.
      * rewrite Hc, Hc1. unfold rejections. by rewrite filter_cons_False by done.
      * intros other Hne. by rewrite Ho, Ho1.
      * intros k Hk. rewrite Hi by done. apply Hk1. by intros ->.
      * intros k Hk. rewrite Hu by (by intros ?; apply Hk; right).
        apply Hk1. intros ->. apply Hk. by left.
      * intros k Hk Hn Hst. destruct (decide (k ∈ keys)) as [Hin|Hnin].
        { apply Hch; [done..|]. by apply Hiff. }
        apply elem_of_cons in Hk as [->|?]; [|done].
        rewrite Hu by done. by apply Hst1.
      * intros k Hk. apply Hs. by rewrite Hiff.
Qed.


Lemma async_type_indexOf this w :
  (indexOf ASYNC_TYPES (field this "_type" w) > -1)%Z ↔ async_type this w.
Proof.
  unfold async_type. destruct (field this "_type" w) as [| | | |s|] eqn:Ht;
    try (rewrite indexOf_not_string by done; split; [lia | intros [?|?]; done]).
  rewrite indexOf_found. unfold ASYNC_TYPES, TYPES.CHARACTER, TYPES.HANDOUT.
  rewrite !elem_of_cons, elem_of_nil. split.
  - intros [->|[->|[]]]; auto.
  - intros [[= ->]|[= ->]]; auto.
Qed.

Lemma async_field_indexOf key :
  (indexOf ASYNC_FIELDS (VStr key) > -1)%Z ↔ async_field key.
Proof.
  rewrite indexOf_found. unfold ASYNC_FIELDS, async_field.
  rewrite !elem_of_cons, elem_of_nil. tauto.
Qed.


(** *** [remove] *)

Lemma remove_occupant this w :
  pool w !! ToString (field this "_id" w) = Some this →
  remove this w
  = Normal None (set_console (λ c, c ++ [(ERROR, CantRemove (field this "_id" w))]) w).
Proof.
  intros Hocc. unfold remove, id, mbind, M_bind, gets. simpl.
  by rewrite bool_decide_eq_true_2.
Qed.

Lemma remove_not_occupant this w :
  pool w !! ToString (field this "_id" w) ≠ Some this →
  remove this w
  = Normal (Some this) (set_pool (delete (ToString (field this "_id" w))) w).
Proof.
  intros Hocc. unfold remove, id, mbind, M_bind, gets. simpl.
  by rewrite bool_decide_eq_false_2.
Qed.

(** [remove] takes its early return, with the diagnostic and without
    touching the pool, exactly when [this] is the instance the pool holds
    under its id. *)
Lemma remove_refused_iff_occupant this w :
  (∃ w', remove this w = Normal None w')
  ↔ pool w !! ToString (field this "_id" w) = Some this.
Proof.
  split.
  - intros [w' Hr].
    destruct (decide (pool w !! ToString (field this "_id" w) = Some this)); [done|].
    by rewrite remove_not_occupant in Hr.
  - intros Hocc. rewrite remove_occupant by done. eauto.
Qed.

(** *** Queries *)

Lemma getAllObjs_elem this w :
  (∃ all, getAllObjs w = Normal all w ∧ this ∈ all) ↔ ∃ k, pool w !! k = Some this.
Proof.
  unfold getAllObjs, gets. split.
  - intros (all & [= <-] & Hin). apply list_elem_of_fmap in Hin as ([k r] & -> & Hin).
    exists k. by apply elem_of_map_to_list.
  - intros [k Hk]. eexists. split; [done|].
    apply list_elem_of_fmap. exists (k, this). split; [done|].
    by apply elem_of_map_to_list.
Qed.

Lemma findObjs_throws (obj : Bag) caseInsensitive w :
  findObjs obj caseInsensitive w = Throw (ReferenceError "filterObjs") w.
Proof. done. Qed.

(** The test [findObjs] builds looks at one key, [_obj]: a pattern
    without that key matches no instance, whatever its fields. *)
Lemma findObjs_test_rejects (obj : Bag) caseInsensitive this w :
  obj !! "_obj" = None →
  findObjs_test obj caseInsensitive this w = Normal false w.
Proof.
  intros Hobj. unfold findObjs_test, Object_keys_Roll20Object.
  cbn [findObjs_keys]. rewrite Hobj. unfold own_property.
  rewrite bool_decide_eq_true_2 by done. simpl.
  unfold mbind, M_bind, mret, M_ret. by destruct caseInsensitive.
Qed.

Lemma filter_cb_rejects (cb : Roll20Object → M Handler bool) arr w :
  (∀ x, cb x w = Normal false w) → filter_cb cb arr w = Normal [] w.
Proof.
  intros Hcb. induction arr as [|x arr IH]; [done|].
  cbn [filter_cb]. unfold mbind, M_bind. rewrite Hcb.
  fold (@mbind _ (@M_bind Handler)). unfold mbind, M_bind. by rewrite IH.
Qed.

(** C7.  On a store whose pool is empty, [filterObjs] returns the empty
    list for every callback and [getAllObjs] returns the empty list.
    [findObjs] does not: for every pattern and either setting of
    [caseInsensitive] it throws [ReferenceError], because its first
    statement reads the constant [filterObjs] it is declaring.  The
    filter it was about to run, [MOCKS.filterObjs] with its test, would
    have returned the empty list. *)
Theorem queries_on_an_empty_pool w :
  let w0 := set_pool (λ _, ∅) w in
  (∀ cb, filterObjs cb w0 = Normal [] w0)
  ∧ getAllObjs w0 = Normal [] w0
  ∧ (∀ (obj : Bag) caseInsensitive,
       findObjs obj caseInsensitive w0 = Throw (ReferenceError "filterObjs") w0
       ∧ filterObjs (findObjs_test obj caseInsensitive) w0 = Normal [] w0).
Proof.
  intros w0.
  assert (∀ cb, filterObjs cb w0 = Normal [] w0) as Hfilter.
  { intros cb. unfold filterObjs, mbind, M_bind, gets. simpl.
    by rewrite map_to_list_empty. }
  split_and!; [done| |].
  - unfold getAllObjs, gets. simpl. by rewrite map_to_list_empty.
  - intros obj ci. split; [apply findObjs_throws | apply Hfilter].
Qed.
End EntityFacts.

(** ** The event bus *)

Section EventFacts.
Context `{JsRuntime} {Handler : Type}.
Variable run : Handler → list JsValue → M Handler unit.
Implicit Types (w : World Handler) (rest : list JsValue) (h : Handler).

Lemma grows_refl w : grows w w.
Proof. intros a l Hl. exists []. by rewrite app_nil_r. Qed.

Lemma grows_trans w1 w2 w3 : grows w1 w2 → grows w2 w3 → grows w1 w3.
Proof.
  intros H12 H23 a l Hl. destruct (H12 a l Hl) as [l1 Hl1].
  destruct (H23 a _ Hl1) as [l2 Hl2]. exists (l1 ++ l2). by rewrite app_assoc.
Qed.

Lemma same_registry_grows w w' : same_registry w w' → grows w w'.
Proof. intros [_ Ha] a l Hl. exists []. by rewrite Ha, app_nil_r. Qed.

Lemma registered_same w w' name :
  same_registry w w' → registered name w' = registered name w.
Proof. intros [Hh Ha]. unfold registered. by rewrite Hh, Ha. Qed.

Lemma same_registry_refl w : same_registry w w.
Proof. done. Qed.

Lemma same_registry_trans w1 w2 w3 :
  same_registry w1 w2 → same_registry w2 w3 → same_registry w1 w3.
Proof. intros [? ?] [? ?]. split; congruence. Qed.

(** *** Names inherited from [Object.prototype] *)

Lemma sheetWorkerCompleted_plain : sheetWorkerCompleted ∉ Object_prototype_names.
Proof. apply (bool_decide_unpack _). by vm_compute. Qed.

Lemma Object_prototype_names_no_colon name :
  name ∈ Object_prototype_names → no_colon name.
Proof.
  unfold Object_prototype_names. rewrite !elem_of_cons, elem_of_nil.
  intros Hname. repeat (destruct Hname as [->|Hname]; [done|]). done.
Qed.

Lemma no_colon_append_colon x s : no_colon (x +:+ ":" +:+ s) = false.
Proof.
  induction x as [|c x IH]; [done|].
  change (no_colon (String c (x +:+ ":" +:+ s)) = false).
  cbn [no_colon]. rewrite IH. apply andb_false_r.
Qed.

Lemma join_colon_cons x y l :
  join_colon (x :: y :: l) = x +:+ ":" +:+ join_colon (y :: l).
Proof. done. Qed.

(** A name joined from two segments or more is no member of
    [Object.prototype]. *)
Lemma join_colon_plain x y l :
  join_colon (x :: y :: l) ∉ Object_prototype_names.
Proof.
  intros Hin%Object_prototype_names_no_colon.
  rewrite join_colon_cons, no_colon_append_colon in Hin. done.
Qed.

(** *** The loop over one handler array *)

Section Growing.
(** Handlers that, when they return, have at most pushed to the handler
    arrays. *)
Hypothesis run_grows : ∀ h rest w w', run h rest w = Normal tt w' → grows w w'.

Lemma run_each_grows rest hs : ∀ w w',
  run_each run rest hs w = Normal tt w' → grows w w'.
Proof.
  unfold run_each. induction hs as [|h hs IH]; intros w w'; cbn [forEach].
  - intros [= <-]. apply grows_refl.
  - unfold mbind, M_bind.
    destruct (run h rest w) as [[] w1|e w1] eqn:Hrun; [|done].
    intros Hrest. eapply grows_trans; [by eapply run_grows|]. by apply IH.
Qed.

(** The loop reads each element when its turn comes; as long as the
    handlers only push, it calls the elements the array had when the loop
    started, one after the other. *)
Lemma forEach_handler_runs a rest n : ∀ k w l,
  arrays w !! a = Some l → k + n ≤ length l →
  forEach_handler run a rest k n w
  = (run_each run rest (take n (drop k l)) ;;
     mret (calls_of rest (take n (drop k l)))) w.
Proof.
  induction n as [|n IH]; intros k w l Hl Hlen; [done|].
  cbn [forEach_handler]. unfold mbind at 1, M_bind at 1, gets at 1.
  rewrite Hl. simpl.
  destruct (lookup_lt_is_Some_2 l k) as [h Hh]; [lia|]. rewrite Hh.
  rewrite (drop_S l h k Hh). cbn [take].
  unfold run_each. cbn [forEach]. unfold mbind at 1 3, M_bind at 1 3.
  unfold mbind at 2, M_bind at 2.
  destruct (run h rest w) as [[] w1|e w1] eqn:Hrun; [|done].
  destruct (run_grows _ _ _ _ Hrun a l Hl) as [l1 Hl1].
  unfold mbind at 1, M_bind at 1.
  rewrite (IH (S k) w1 (l ++ l1) Hl1) by (rewrite length_app; lia).
  rewrite drop_app_le by lia. rewrite take_app_le by (rewrite length_drop; lia).
  unfold run_each, mbind, M_bind.
  by destruct (forEach (take n (drop (S k) l)) _ w1).
Qed.

Lemma call_handlers_runs name rest w :
  name ∉ Object_prototype_names ∨ is_Some (_handlers w !! name) →
  call_handlers run name rest w
  = (run_each run rest (registered name w) ;;
     mret (calls_of rest (registered name w))) w.
Proof.
  intros Hname. unfold call_handlers, registered, mbind at 1, M_bind at 1, gets at 1.
  destruct (_handlers w !! name) as [a|] eqn:Hn.
  - unfold mbind at 1, M_bind at 1, gets at 1.
    destruct (arrays w !! a) as [l|] eqn:Hl; simpl; [|done].
    rewrite (forEach_handler_runs a rest (length l) 0 w l Hl) by lia.
    by rewrite drop_0, firstn_all.
  - destruct Hname as [Hname|[? [=]]]. by rewrite bool_decide_eq_false_2.
Qed.
End Growing.

(** With no array of its own under the name, a name that [Object.prototype]
    has a member for makes the call throw. *)
Lemma call_handlers_inherited name rest w :
  name ∈ Object_prototype_names → _handlers w !! name = None →
  call_handlers run name rest w = Throw (TypeError forEach_is_not_a_function) w.
Proof.
  intros Hname Hn. unfold call_handlers, mbind, M_bind, gets. rewrite Hn.
  by rewrite bool_decide_eq_true_2.
Qed.

(** *** Registration *)

Lemma new_array_fresh (elems : list Handler) w :
  ∃ a, new_array elems w = Normal a (set_arrays <[a := elems]> w)
       ∧ arrays w !! a = None.
Proof.
  exists (fresh (dom (arrays w))). split; [done|].
  apply not_elem_of_dom, is_fresh.
Qed.

Lemma ensure_array_registered name w :
  name ∉ Object_prototype_names ∨ is_Some (_handlers w !! name) →
  ∃ a w', ensure_array name w = Normal (Some a) w'
    ∧ _handlers w' !! name = Some a
    ∧ default [] (arrays w' !! a) = registered name w
    ∧ registered name w' = registered name w
    ∧ (∀ other, other ≠ name → registered other w' = registered other w)
    ∧ grows w w'
    ∧ console w' = console w ∧ pool w' = pool w ∧ heap w' = heap w.
Proof.
  intros Hname. unfold ensure_array, mbind, M_bind, gets.
  destruct (_handlers w !! name) as [a|] eqn:Hn.
  - exists a, w. unfold mret, M_ret, registered. rewrite Hn.
    split_and!; try done. apply grows_refl.
  - destruct Hname as [Hname|[? [=]]]. rewrite bool_decide_eq_false_2 by done.
    destruct (new_array_fresh [] w) as (a & -> & Hfresh).
    exists a. eexists. split; [done|]. unfold registered. simpl.
    rewrite !lookup_insert_eq, Hn. simpl.
    split_and!; try done.
    + intros other Hne. rewrite lookup_insert_ne by done.
      destruct (_handlers w !! other) as [b|] eqn:Hb; [|done].
      destruct (decide (a = b)) as [->|Hab].
      * by rewrite lookup_insert_eq, Hfresh.
      * by rewrite lookup_insert_ne.
    + intros b l Hl. exists []. rewrite app_nil_r. simpl.
      rewrite lookup_insert_ne; [done|]. intros ->. congruence.
Qed.

Lemma ensure_array_inherited name w :
  name ∈ Object_prototype_names → _handlers w !! name = None →
  ensure_array name w = Normal None w.
Proof.
  intros Hname Hn. unfold ensure_array, mbind, M_bind, gets. rewrite Hn.
  by rewrite bool_decide_eq_true_2.
Qed.

Lemma push_registered name a cb w :
  _handlers w !! name = Some a →
  registered name (set_arrays (λ m, <[a := default [] (m !! a) ++ [cb]]> m) w)
  = registered name w ++ [cb].
Proof. intros Hn. unfold registered. simpl. by rewrite Hn, lookup_insert_eq. Qed.

(** [onSheetWorkerCompleted] puts the callback last in line. *)
Lemma onSheetWorkerCompleted_appends cb w :
  ∃ w', onSheetWorkerCompleted cb w = Normal tt w'
    ∧ registered sheetWorkerCompleted w' = registered sheetWorkerCompleted w ++ [cb].
Proof.
  unfold onSheetWorkerCompleted, mbind, M_bind, info, emit, modify.
  destruct (ensure_array_registered sheetWorkerCompleted
              (set_console (λ c, c ++ [(INFO, OnSheetWorkerCompletedCalled)]) w))
    as (a & w1 & -> & Hn & _ & Hreg & _).
  { left. apply sheetWorkerCompleted_plain. }
  unfold push_to, push, modify. eexists. split; [done|].
  rewrite (push_registered _ _ _ _ Hn). by rewrite Hreg.
Qed.

(** [on] does the same for the channel it names. *)
Lemma on_appends eventName handler w :
  eventName ∉ Object_prototype_names ∨ is_Some (_handlers w !! eventName) →
  ∃ w', on eventName handler w = Normal tt w'
    ∧ registered eventName w' = registered eventName w ++ [handler].
Proof.
  intros Hname. unfold on, mbind, M_bind.
  destruct (ensure_array_registered eventName w Hname)
    as (a & w1 & -> & Hn & _ & Hreg & _).
  unfold push_to, push, log, info, emit, modify. eexists. split; [done|].
  change (registered eventName
    (set_console _ (set_arrays (λ m, <[a := default [] (m !! a) ++ [handler]]> m) w1)))
    with (registered eventName
      (set_arrays (λ m, <[a := default [] (m !! a) ++ [handler]]> m) w1)).
  rewrite (push_registered _ _ _ _ Hn). by rewrite Hreg.
Qed.

(** Under a name that [Object.prototype] has a member for, [on] finds the
    member where it expects an array, and throws before it logs. *)
Lemma on_inherited eventName handler w :
  eventName ∈ Object_prototype_names → _handlers w !! eventName = None →
  on eventName handler w = Throw (TypeError push_is_not_a_function) w.
Proof.
  intros Hname Hn. unfold on, mbind, M_bind.
  by rewrite ensure_array_inherited.
Qed.

(** *** Firing [sheetWorkerCompleted] *)

(** The two statements after the loop: a new empty array takes the place
    of the one just called. *)
Lemma reset_after_fire {A} (calls : A) w :
  ∃ w', (a ← new_array []; modify (set_handlers <[sheetWorkerCompleted := a]>) ;;
         mret calls) w = Normal calls w'
    ∧ registered sheetWorkerCompleted w' = [].
Proof.
  destruct (new_array_fresh [] w) as (a & Hnew & _).
  unfold mbind, M_bind. rewrite Hnew. eexists. split; [done|].
  unfold registered. simpl. by rewrite !lookup_insert_eq.
Qed.

Lemma fire_unfold_sheetWorkerCompleted rest w :
  _fireEvent run sheetWorkerCompleted rest w
  = (calls ← call_handlers run sheetWorkerCompleted rest;
     a ← new_array [];
     modify (set_handlers <[sheetWorkerCompleted := a]>) ;;
     mret calls)
      (set_console (λ c, c ++ [(TRACE, FireEvent sheetWorkerCompleted rest)]) w).
Proof. done. Qed.

(** With nothing registered the fire calls nothing, whatever the handlers
    would do. *)
Lemma fire_nothing_registered rest w :
  registered sheetWorkerCompleted w = [] →
  _fireEvent run sheetWorkerCompleted rest w = drain run rest [] w
  ∧ ∃ w', _fireEvent run sheetWorkerCompleted rest w = Normal [] w'
          ∧ registered sheetWorkerCompleted w' = [].
Proof.
  intros Hreg. rewrite fire_unfold_sheetWorkerCompleted.
  set (w0 := set_console _ w).
  assert (call_handlers run sheetWorkerCompleted rest w0 = Normal [] w0) as Hcall.
  { unfold call_handlers, mbind, M_bind, gets. unfold registered in Hreg.
    change (_handlers w0) with (_handlers w).
    destruct (_handlers w !! sheetWorkerCompleted) as [a|].
    - change (arrays w0) with (arrays w).
      destruct (arrays w !! a) as [l|]; simpl in *; [by subst l | done].
    - by rewrite bool_decide_eq_false_2 by apply sheetWorkerCompleted_plain. }
  split.
  - unfold mbind at 1, M_bind at 1. by rewrite Hcall.
  - destruct (reset_after_fire (@nil (Handler * list JsValue)) w0) as (w' & Hw' & Hreg').
    exists w'. split; [|done]. unfold mbind at 1, M_bind at 1. by rewrite Hcall.
Qed.

(** The fire of [sheetWorkerCompleted], for handlers that only push: the
    callbacks queued when it starts, each called once, in order, then the
    reset. *)
Lemma fire_drains rest w :
  (∀ h rest w w', run h rest w = Normal tt w' → grows w w') →
  _fireEvent run sheetWorkerCompleted rest w
  = drain run rest (registered sheetWorkerCompleted w) w.
Proof.
  intros Hrun. rewrite fire_unfold_sheetWorkerCompleted.
  set (w0 := set_console _ w).
  unfold mbind at 1, M_bind at 1.
  rewrite (call_handlers_runs Hrun) by (left; apply sheetWorkerCompleted_plain).
  change (registered sheetWorkerCompleted w0) with (registered sheetWorkerCompleted w).
  unfold drain, trace, emit, modify. unfold mbind at 4, M_bind at 4.
  fold w0. unfold mbind, M_bind.
  by destruct (run_each run rest (registered sheetWorkerCompleted w) w0).
Qed.

Lemma run_each_returns rest hs :
  (∀ h rest w, ∃ w', run h rest w = Normal tt w') →
  ∀ w, ∃ w', run_each run rest hs w = Normal tt w'.
Proof.
  intros Hrun. unfold run_each.
  induction hs as [|h hs IH]; intros w; cbn [forEach]; [by exists w|].
  unfold mbind, M_bind. destruct (Hrun h rest w) as [w1 ->]. apply IH.
Qed.

Lemma drain_returns rest hs w :
  (∀ h rest w, ∃ w', run h rest w = Normal tt w') →
  ∃ w', drain run rest hs w = Normal (calls_of rest hs) w'
        ∧ registered sheetWorkerCompleted w' = [].
Proof.
  intros Hreturns. unfold drain, trace, emit, modify. unfold mbind at 1, M_bind at 1.
  set (w0 := set_console _ w).
  destruct (run_each_returns rest hs Hreturns w0) as [w1 Heach].
  unfold mbind at 1, M_bind at 1. rewrite Heach.
  apply reset_after_fire.
Qed.

(** C3.  Provided every handler returns and treats the handler arrays
    as the library does (elements are only pushed), a fire of
    [sheetWorkerCompleted] is this and no more: it logs its trace line,
    calls the handlers registered under that name when it starts, each
    once, in registration order, with the arguments of the fire and on the
    store the one before left, and puts a new empty array in place of the
    one it called.  It returns; afterwards nothing is registered under the
    name, and a second fire calls no handler: it logs and resets. *)
Theorem fire_sheetWorkerCompleted_calls_each_once_then_clears rest w :
  (∀ h rest w, ∃ w', run h rest w = Normal tt w' ∧ grows w w') →
  _fireEvent run sheetWorkerCompleted rest w
  = drain run rest (registered sheetWorkerCompleted w) w
  ∧ ∃ w', _fireEvent run sheetWorkerCompleted rest w
          = Normal (calls_of rest (registered sheetWorkerCompleted w)) w'
    ∧ registered sheetWorkerCompleted w' = []
    ∧ (∀ rest', _fireEvent run sheetWorkerCompleted rest' w' = drain run rest' [] w'
                ∧ ∃ w'', _fireEvent run sheetWorkerCompleted rest' w' = Normal [] w''
                         ∧ registered sheetWorkerCompleted w'' = []).
Proof.
  intros Hrun.
  assert (∀ h rest w w', run h rest w = Normal tt w' → grows w w') as Hgrows.
  { intros h rest0 w0 w' Hr. destruct (Hrun h rest0 w0) as (w'' & Hr' & Hg).
    rewrite Hr in Hr'. by injection Hr' as ->. }
  assert (∀ h rest w, ∃ w', run h rest w = Normal tt w') as Hreturns.
  { intros h rest0 w0. destruct (Hrun h rest0 w0) as (w' & ? & _). by exists w'. }
  pose proof (fire_drains rest w Hgrows) as Hfire. split; [exact Hfire|].
  rewrite Hfire.
  destruct (drain_returns rest (registered sheetWorkerCompleted w) w Hreturns)
    as (w' & Hw' & Hreg').
  exists w'. split_and!; [done..|].
  intros rest'. by apply fire_nothing_registered.
Qed.

(** *** Handlers that only return *)

Section Returning.
Hypothesis run_returns : ∀ h rest w, ∃ w', run h rest w = Normal tt w'.

Lemma forEach_handler_returns a rest n : ∀ k w,
  ∃ calls w', forEach_handler run a rest k n w = Normal calls w'.
Proof.
  induction n as [|n IH]; intros k w; [by exists [], w|].
  cbn [forEach_handler]. unfold mbind at 1, M_bind at 1, gets at 1.
  destruct (arrays w !! a ≫= (.!! k)) as [h|]; [|apply IH].
  destruct (run_returns h rest w) as [w1 Hrun].
  destruct (IH (S k) w1) as (calls & w2 & Hloop).
  exists ((h, rest) :: calls), w2.
  unfold mbind, M_bind. rewrite Hrun.
  fold (@mbind _ (@M_bind Handler)). unfold mbind, M_bind. by rewrite Hloop.
Qed.

Lemma call_handlers_returns name rest w :
  name ∉ Object_prototype_names →
  ∃ calls w', call_handlers run name rest w = Normal calls w'.
Proof.
  intros Hname. unfold call_handlers, mbind, M_bind, gets.
  destruct (_handlers w !! name) as [a|].
  - apply forEach_handler_returns.
  - rewrite bool_decide_eq_false_2 by done. by exists [], w.
Qed.
End Returning.

(** C10.  Provided every handler returns, and whatever else the handlers
    do to the store (subscribing further callbacks with
    [onSheetWorkerCompleted] included), once a fire of
    [sheetWorkerCompleted] is over nothing is registered under that name,
    and the next fire calls no handler: what was subscribed during the
    fire is gone with the array that was called. *)
Theorem fire_sheetWorkerCompleted_discards_what_handlers_register rest w :
  (∀ h rest w, ∃ w', run h rest w = Normal tt w') →
  ∃ calls w', _fireEvent run sheetWorkerCompleted rest w = Normal calls w'
    ∧ registered sheetWorkerCompleted w' = []
    ∧ (∀ rest', ∃ w'', _fireEvent run sheetWorkerCompleted rest' w' = Normal [] w'').
Proof.
  intros Hrun. rewrite fire_unfold_sheetWorkerCompleted.
  set (w0 := set_console _ w).
  destruct (call_handlers_returns Hrun sheetWorkerCompleted rest w0
              sheetWorkerCompleted_plain) as (calls & w1 & Hcall).
  destruct (reset_after_fire calls w1) as (w' & Hw' & Hreg').
  exists calls, w'. split_and!.
  - unfold mbind at 1, M_bind at 1. by rewrite Hcall.
  - done.
  - intros rest'.
    destruct (fire_nothing_registered rest' w' Hreg') as (_ & w'' & ? & _).
    by exists w''.
Qed.

(** *** Firing an ordinary channel *)

Lemma levels_of_S subEvents n :
  levels_of subEvents (S n)
  = join_colon (take (S n) subEvents) :: levels_of subEvents n.
Proof.
  unfold levels_of. by rewrite seq_S, reverse_app, reverse_singleton.
Qed.

Lemma split_colon_no_colon s : no_colon s → split_colon s = [s].
Proof.
  induction s as [|c s IH]; [done|]. cbn [no_colon split_colon].
  case_bool_decide; [done|]. simpl. intros Hs. by rewrite IH.
Qed.

Lemma split_colon_app x y :
  no_colon x → split_colon (x +:+ ":" +:+ y) = x :: split_colon y.
Proof.
  induction x as [|c x IH]; [done|]. cbn [no_colon]. simpl.
  case_bool_decide; [done|]. simpl. intros Hx. by rewrite IH.
Qed.

Lemma levels_two x y :
  no_colon x → no_colon y → levels (x +:+ ":" +:+ y) = [x +:+ ":" +:+ y; x].
Proof.
  intros Hx Hy. unfold levels.
  rewrite split_colon_app, split_colon_no_colon by done. done.
Qed.

Lemma levels_one x : no_colon x → levels x = [x].
Proof. intros Hx. unfold levels. by rewrite split_colon_no_colon. Qed.

Lemma split_colon_nonempty s : split_colon s ≠ [].
Proof.
  destruct s as [|c s]; [done|]. cbn [split_colon].
  case_bool_decide; [done|]. by destruct (split_colon s).
Qed.

Lemma two_segments_ordinary x y :
  no_colon x → x +:+ ":" +:+ y ≠ sheetWorkerCompleted.
Proof.
  intros Hx Heq. apply (f_equal split_colon) in Heq.
  rewrite split_colon_app in Heq by done.
  pose proof (split_colon_nonempty y) as Hy.
  by destruct (split_colon y).
Qed.

Lemma two_segments_plain x y :
  no_colon x → x ∉ Object_prototype_names → plain_channel (x +:+ ":" +:+ y).
Proof.
  intros Hx Hplain first. rewrite split_colon_app by done. by intros [= <-].
Qed.

Lemma no_colon_plain x :
  no_colon x → x ∉ Object_prototype_names → plain_channel x.
Proof.
  intros Hx Hplain first. rewrite split_colon_no_colon by done. by intros [= <-].
Qed.

(** Of the levels of a name only the last, its first segment, can be the
    name of a member of [Object.prototype]. *)
Lemma levels_plain eventName name :
  plain_channel eventName → name ∈ levels eventName →
  name ∉ Object_prototype_names.
Proof.
  unfold plain_channel, levels, levels_of. intros Hplain Hin.
  apply list_elem_of_fmap in Hin as (k & -> & Hk).
  rewrite elem_of_reverse, elem_of_seq in Hk.
  destruct (split_colon eventName) as [|x [|y l]].
  - simpl in Hk. lia.
  - simpl in Hk. assert (k = 1) as -> by lia. by apply Hplain.
  - destruct k as [|[|k]]; [lia| |].
    + by apply Hplain.
    + cbn [take]. apply join_colon_plain.
Qed.

Section Quiet.
(** Handlers that, when they return, have left the registry as it was. *)
Hypothesis run_same : ∀ h rest w w', run h rest w = Normal tt w' → same_registry w w'.

Lemma run_grows_of_same h rest w w' : run h rest w = Normal tt w' → grows w w'.
Proof. intros Hr. by eapply same_registry_grows, run_same. Qed.

Lemma run_each_same rest hs : ∀ w w',
  run_each run rest hs w = Normal tt w' → same_registry w w'.
Proof.
  unfold run_each. induction hs as [|h hs IH]; intros w w'; cbn [forEach].
  - by intros [= <-].
  - unfold mbind, M_bind.
    destruct (run h rest w) as [[] w1|e w1] eqn:Hrun; [|done].
    intros Hrest. eapply same_registry_trans; [by eapply run_same|]. by apply IH.
Qed.

Lemma call_handlers_plan name rest w :
  call_handlers run name rest w
  = (run_registered run rest w name ;; mret (calls_of rest (registered name w))) w.
Proof.
  unfold run_registered. case_bool_decide as Hname.
  - destruct Hname as [Hin Hn]. by rewrite call_handlers_inherited.
  - apply (call_handlers_runs run_grows_of_same).
    destruct (_handlers w !! name) eqn:Hn; [right; eauto|].
    left. intros Hin. by apply Hname.
Qed.

Lemma run_registered_same rest name w0 w w' :
  run_registered run rest w0 name w = Normal tt w' → same_registry w w'.
Proof.
  unfold run_registered. case_bool_decide; [done|]. apply run_each_same.
Qed.

Lemma run_registered_agrees rest name w0 w1 :
  same_registry w0 w1 →
  run_registered run rest w1 name = run_registered run rest w0 name.
Proof.
  intros Hsame. unfold run_registered.
  rewrite (registered_same w0 w1 name Hsame). destruct Hsame as [-> _]. done.
Qed.

(** The loop over the levels, as a plan: the levels in turn, each with
    the handlers it had when the fire started. *)
Lemma cascade_runs subEvents rest n : ∀ w w0,
  same_registry w0 w →
  cascade run subEvents rest n w
  = (forEach (levels_of subEvents n) (visit run rest w0) ;;
     mret (cascade_calls rest w0 (levels_of subEvents n))) w.
Proof.
  induction n as [|n IH]; intros w w0 Hsame; [done|].
  rewrite levels_of_S. cbn [cascade forEach].
  set (name := join_colon (take (S n) subEvents)).
  change (visit run rest w0 name)
    with (info (FiringEvent name rest) ;; run_registered run rest w0 name).
  unfold mbind, M_bind, info, emit, modify.
  set (w1 := set_console _ w).
  assert (same_registry w0 w1) as Hsame1 by exact Hsame.
  rewrite call_handlers_plan. rewrite (run_registered_agrees rest name w0 w1 Hsame1).
  rewrite (registered_same w0 w1 name Hsame1).
  unfold mbind, M_bind.
  destruct (run_registered run rest w0 name w1) as [[] w2|e w2] eqn:Hlevel; [|done].
  unfold mret, M_ret. rewrite (IH w2 w0).
  - unfold mbind, M_bind, mret, M_ret. by destruct (forEach _ _ w2) as [[] ?|].
  - eapply same_registry_trans; [exact Hsame1|]. by eapply run_registered_same.
Qed.

(** A fire of an ordinary channel, as a plan. *)
Lemma fire_runs eventName rest w :
  eventName ≠ sheetWorkerCompleted →
  _fireEvent run eventName rest w
  = visit_all run eventName rest w (levels eventName) w.
Proof.
  intros Hne. unfold _fireEvent, visit_all, trace, emit, modify.
  unfold mbind at 1, M_bind at 1. rewrite bool_decide_eq_false_2 by done.
  cbv zeta. rewrite (cascade_runs _ _ _ _ w) by done. done.
Qed.

Section QuietAndReturning.
Hypothesis run_returns : ∀ h rest w, ∃ w', run h rest w = Normal tt w'.

Lemma visits_return rest w0 names :
  (∀ name, name ∈ names →
     name ∉ Object_prototype_names ∨ is_Some (_handlers w0 !! name)) →
  ∀ w, ∃ w', forEach names (visit run rest w0) w = Normal tt w'
             ∧ same_registry w w'.
Proof.
  induction names as [|name names IH]; intros Hnames w; cbn [forEach].
  { by exists w. }
  change (visit run rest w0 name)
    with (info (FiringEvent name rest) ;; run_registered run rest w0 name).
  unfold mbind, M_bind, info, emit, modify.
  set (w1 := set_console _ w).
  unfold run_registered. rewrite bool_decide_eq_false_2.
  2:{ intros [Hin Hn]. destruct (Hnames name) as [?|[? Hsome]]; [by left|done|].
      congruence. }
  destruct (run_each_returns rest (registered name w0) run_returns w1) as [w2 Heach].
  rewrite Heach. destruct (IH (λ n Hn, Hnames n (list_elem_of_further _ _ _ Hn)) w2)
    as (w' & Hrest & Hsame).
  exists w'. split; [exact Hrest|].
  eapply same_registry_trans; [|exact Hsame].
  apply (run_each_same _ _ w1 w2 Heach).
Qed.

Lemma fire_returns eventName rest w :
  eventName ≠ sheetWorkerCompleted → plain_channel eventName →
  ∃ w', _fireEvent run eventName rest w
        = Normal (cascade_calls rest w (levels eventName)) w'
      ∧ same_registry w w'.
Proof.
  intros Hne Hplain. rewrite fire_runs by done.
  unfold visit_all, trace, emit, modify. unfold mbind at 1, M_bind at 1.
  set (w1 := set_console _ w).
  destruct (visits_return rest w (levels eventName)
              (λ n Hn, or_introl (levels_plain _ _ Hplain Hn)) w1)
    as (w' & Hvisits & Hsame).
  exists w'. split; [|exact Hsame]. unfold mbind, M_bind. by rewrite Hvisits.
Qed.

(** Where the first segment names a member of [Object.prototype] and
    holds no array, the fire ends at that level, after the handlers of
    the longer name. *)
Lemma fire_inherited_below x y rest w :
  no_colon x → no_colon y →
  x ∈ Object_prototype_names → _handlers w !! x = None →
  ∃ w', _fireEvent run (x +:+ ":" +:+ y) rest w
        = Throw (TypeError forEach_is_not_a_function) w'
      ∧ same_registry w w'.
Proof.
  intros Hx Hy Hin Hn. rewrite fire_runs by by apply two_segments_ordinary.
  rewrite levels_two by done.
  unfold visit_all, trace, emit, modify. unfold mbind at 1, M_bind at 1.
  set (w1 := set_console _ w).
  assert (∀ name, name ∈ [x +:+ ":" +:+ y] →
            name ∉ Object_prototype_names ∨ is_Some (_handlers w !! name)) as Hfirst.
  { intros name ->%list_elem_of_singleton. left. apply (join_colon_plain x y []). }
  destruct (visits_return rest w _ Hfirst w1) as (w2 & Hvisit & Hsame).
  cbn [forEach] in Hvisit |- *. unfold mbind, M_bind in Hvisit |- *.
  destruct (visit run rest w (x +:+ ":" +:+ y) w1) as [[] w3|e w3]; [|done].
  injection Hvisit as ->.
  unfold visit, run_registered, mbind, M_bind, info, emit, modify.
  rewrite bool_decide_eq_true_2 by done. eexists. split; [done|].
  destruct Hsame as [? ?]. done.
Qed.

Lemma fire_inherited x rest w :
  x ∈ Object_prototype_names → _handlers w !! x = None →
  _fireEvent run x rest w
  = Throw (TypeError forEach_is_not_a_function)
      (set_console (λ c, c ++ [(INFO, FiringEvent x rest)])
         (set_console (λ c, c ++ [(TRACE, FireEvent x rest)]) w)).
Proof.
  intros Hin Hn. rewrite fire_runs.
  2:{ intros ->. by apply sheetWorkerCompleted_plain. }
  rewrite levels_one by by apply Object_prototype_names_no_colon.
  unfold visit_all, visit, run_registered, trace, info, emit, modify, mbind, M_bind.
  cbn [forEach]. unfold mbind, M_bind. by rewrite bool_decide_eq_true_2.
Qed.
End QuietAndReturning.
End Quiet.

(** C4.  For handlers that leave the registry as it is when they return,
    firing a channel other than [sheetWorkerCompleted] is this and no
    more: the trace line, then for each level of the name in turn, the
    full name first and each shorter prefix after it, the line [info] logs
    for the level and the handlers registered under it when the fire
    started, each called once, in order, with the arguments of the fire
    and on the store the one before left.  For a name [x:y] the levels are
    [x:y] and [x]: a handler registered under neither is not called.
    Where the handlers return and the first segment is no name of a member
    of [Object.prototype], the fire returns, a level with nothing
    registered contributing no call and no error.  Where the first segment
    is such a name and has nothing registered, the fire ends at that level
    with a [TypeError]. *)
Theorem fire_cascades_from_most_to_least_specific :
  (∀ h rest w w', run h rest w = Normal tt w' → same_registry w w') →
  (∀ eventName rest w, eventName ≠ sheetWorkerCompleted →
     _fireEvent run eventName rest w
     = visit_all run eventName rest w (levels eventName) w)
  ∧ (∀ x y rest w, no_colon x → no_colon y →
       _fireEvent run (x +:+ ":" +:+ y) rest w
       = visit_all run (x +:+ ":" +:+ y) rest w [x +:+ ":" +:+ y; x] w)
  ∧ ((∀ h rest w, ∃ w', run h rest w = Normal tt w') →
     (∀ eventName rest w,
        eventName ≠ sheetWorkerCompleted → plain_channel eventName →
        ∃ w', _fireEvent run eventName rest w
              = Normal (cascade_calls rest w (levels eventName)) w'
            ∧ same_registry w w')
     ∧ (∀ x y rest w, no_colon x → no_colon y → x ∉ Object_prototype_names →
          ∃ w', _fireEvent run (x +:+ ":" +:+ y) rest w
                = Normal (calls_of rest (registered (x +:+ ":" +:+ y) w)
                          ++ calls_of rest (registered x w)) w')
     ∧ (∀ x y rest w, no_colon x → no_colon y →
          x ∈ Object_prototype_names → _handlers w !! x = None →
          ∃ w', _fireEvent run (x +:+ ":" +:+ y) rest w
                = Throw (TypeError forEach_is_not_a_function) w')).
Proof.
  intros Hsame. split_and!.
  - intros eventName rest w Hne. by apply fire_runs.
  - intros x y rest w Hx Hy.
    rewrite (fire_runs Hsame) by by apply two_segments_ordinary.
    by rewrite levels_two.
  - intros Hreturns. split_and!.
    + intros eventName rest w Hne Hplain. by apply fire_returns.
    + intros x y rest w Hx Hy Hplain.
      destruct (fire_returns Hsame Hreturns (x +:+ ":" +:+ y) rest w)
        as (w' & Hw' & _).
      { by apply two_segments_ordinary. }
      { by apply two_segments_plain. }
      exists w'. rewrite Hw', levels_two by done.
      unfold cascade_calls. simpl. by rewrite app_nil_r.
    + intros x y rest w Hx Hy Hin Hn.
      destruct (fire_inherited_below Hsame Hreturns x y rest w Hx Hy Hin Hn)
        as (w' & Hw' & _).
      by exists w'.
Qed.

(** *** [setWithWorker] *)


End EventFacts.

(** ** The binding layer *)

Section BindingFacts.
Context {Fn : Type}.
Variable mock : string → option Fn.
Variable createObj_wrapper : option Fn → option Fn.
Variable cfg_mocks : list (string * option Fn).
Variable cfg_wrappers : list (string * (option Fn → option Fn)).
Variable topLevelScope : gmap string Fn.

#[local] Abbreviation bind_key' := (bind_key mock createObj_wrapper cfg_mocks cfg_wrappers topLevelScope).
#[local] Abbreviation resolved' := (resolved mock cfg_mocks topLevelScope).
#[local] Abbreviation wrapped' := (wrapped createObj_wrapper cfg_wrappers).

Lemma bound_bind key v (b : Binding Fn) k :
  bound (bind key v b) k = if decide (k = key) then v else bound b k.
Proof.
  unfold bound, bind. simpl. case_decide as Hk.
  - subst k. by rewrite lookup_insert_eq.
  - by rewrite lookup_insert_ne.
Qed.

Lemma bound_say msg (b : Binding Fn) k : bound (say msg b) k = bound b k.
Proof. done. Qed.

(** One round of the loop binds its key to the wrapped resolved value
    and leaves the other names alone. *)
Lemma bind_key_bound (b : Binding Fn) key k :
  bound (bind_key' b key) k
  = if decide (k = key) then wrapped' key (resolved' key) else bound b k.
Proof.
  unfold bind_key, wrapped, resolved.
  destruct (entry (WRAPPERS _ _) key) as [wrapper|];
    destruct (topLevelScope !! key) as [f|];
    try destruct (default None (entry (MOCKS mock cfg_mocks) key)) as [m|] eqn:Hm;
    repeat (rewrite ?bound_bind, ?bound_say; try case_decide); try done.
Qed.

Lemma foldl_bind_key_bound keys : ∀ (b : Binding Fn) k,
  bound (foldl bind_key' b keys) k
  = if decide (k ∈ keys) then wrapped' k (resolved' k) else bound b k.
Proof.
  induction keys as [|key keys IH]; intros b k; cbn [foldl].
  - rewrite decide_False; [done | by intros ?%elem_of_nil].
  - rewrite IH, bind_key_bound.
    destruct (decide (k ∈ keys)) as [Hin|Hnin].
    + rewrite decide_True; [done | by right].
    + destruct (decide (k = key)) as [->|Hne].
      * rewrite decide_True; [done | by left].
      * rewrite decide_False; [done|]. by intros [?|?]%elem_of_cons.
Qed.

(** Whatever object the loop inspects, a key of [MOCKS] ends up bound to
    the wrapped resolved value. *)
Lemma bind_all_bound key :
  key ∈ (MOCKS mock cfg_mocks).*1 →
  bound (bind_all mock createObj_wrapper cfg_mocks cfg_wrappers topLevelScope) key
  = wrapped' key (resolved' key).
Proof.
  intros Hkey. unfold bind_all. rewrite foldl_bind_key_bound. by rewrite decide_True.
Qed.
End BindingFacts.

Section HostFacts.
Context {Fn : Type}.
Variable mock : string → option Fn.
Variable createObj_wrapper : option Fn → option Fn.
Variable cfg_mocks : list (string * option Fn).
Variable cfg_wrappers : list (string * (option Fn → option Fn)).
Variable origin : Scopes.Scope.
Variable members : list string → gmap string Fn.

#[local] Abbreviation top := (topLevelScope_of origin members).
#[local] Abbreviation resolved_in_host := (resolved mock cfg_mocks top).
#[local] Abbreviation wrapped_in_host := (wrapped createObj_wrapper cfg_wrappers).
#[local] Abbreviation mocked := (λ key, default None (entry (MOCKS mock cfg_mocks) key)).

(** The object [util.getScope()] returns is the one the origin holds
    under the empty name, not the origin. *)
Lemma topLevelScope_of_unfold :
  topLevelScope_of origin members
  = if Scopes.prop origin EmptyString is Some _ then members [EmptyString] else ∅.
Proof.
  unfold topLevelScope_of. cbn. by destruct (Scopes.prop origin EmptyString).
Qed.

(** C9.  For every key of [MOCKS] that is not the name of a member of
    [Object.prototype], the value [_api] ends up with is the wrapper
    registered for the key, if there is one, applied to the resolved
    value, and the resolved value itself otherwise; the resolved value is
    the one that the object returned by [util.getScope()] defines for the
    key, if it defines one, and the mock otherwise.  That object is the
    one the origin holds under the empty name: what the origin itself,
    the top-level scope, defines for the key is not looked at, and with
    nothing under the empty name the mock is installed even for a key the
    top-level scope defines. *)
Theorem binding_adopts_what_getScope_returns_or_the_mock_then_wraps key :
  key ∈ (MOCKS mock cfg_mocks).*1 →
  key ∉ Object_prototype_names →
  bound (bind_all mock createObj_wrapper cfg_mocks cfg_wrappers top) key
  = wrapped_in_host key (resolved_in_host key)
  ∧ (∀ f, top !! key = Some f → resolved_in_host key = Some f)
  ∧ (top !! key = None → resolved_in_host key = mocked key)
  ∧ (∀ wrapper, entry (WRAPPERS createObj_wrapper cfg_wrappers) key = Some wrapper →
       wrapped_in_host key (resolved_in_host key) = wrapper (resolved_in_host key))
  ∧ (entry (WRAPPERS createObj_wrapper cfg_wrappers) key = None →
       wrapped_in_host key (resolved_in_host key) = resolved_in_host key)
  ∧ top !! key
    = (if Scopes.prop origin EmptyString is Some _ then members [EmptyString] !! key else None)
  ∧ (Scopes.prop origin EmptyString = None →
     ∀ f, members [] !! key = Some f →
       bound (bind_all mock createObj_wrapper cfg_mocks cfg_wrappers top) key
       = wrapped_in_host key (mocked key)).
Proof.
  intros Hkey _.
  assert (top !! key
          = (if Scopes.prop origin EmptyString is Some _ then members [EmptyString] !! key else None))
    as Htop.
  { rewrite topLevelScope_of_unfold. by destruct (Scopes.prop origin EmptyString). }
  split_and!.
  - by apply bind_all_bound.
  - intros f Hf. unfold resolved. by rewrite Hf.
  - intros Hf. unfold resolved. by rewrite Hf.
  - intros wrapper Hw. unfold wrapped. by rewrite Hw.
  - intros Hw. unfold wrapped. by rewrite Hw.
  - exact Htop.
  - intros Hnone f _. rewrite bind_all_bound by done.
    unfold resolved. rewrite Htop, Hnone. done.
Qed.
End HostFacts.

(** ** The fixtures behave *)

Section FixtureFacts.
Context `{JsRuntime}.

Lemma push_grows {Handler} a (handler : Handler) (w : World Handler) :
  grows w (set_arrays (λ m, <[a := default [] (m !! a) ++ [handler]]> m) w).
Proof.
  intros b l Hl. simpl. destruct (decide (a = b)) as [->|Hne].
  - exists [handler]. by rewrite lookup_insert_eq, Hl.
  - exists []. by rewrite lookup_insert_ne, app_nil_r.
Qed.

Lemma on_grows {Handler} eventName (handler : Handler) (w : World Handler) :
  eventName ∉ Object_prototype_names ∨ is_Some (_handlers w !! eventName) →
  ∃ w', on eventName handler w = Normal tt w' ∧ grows w w'.
Proof.
  intros Hname. unfold on, mbind, M_bind.
  destruct (ensure_array_registered eventName w Hname)
    as (a & w1 & -> & _ & _ & _ & _ & Hgrows & _).
  unfold push_to, push, log, info, emit, modify. eexists. split; [done|].
  eapply grows_trans; [exact Hgrows|].
  intros b l Hl. by apply (push_grows a handler w1).
Qed.

Lemma onSheetWorkerCompleted_grows {Handler} (cb : Handler) (w : World Handler) :
  ∃ w', onSheetWorkerCompleted cb w = Normal tt w' ∧ grows w w'.
Proof.
  unfold onSheetWorkerCompleted, mbind, M_bind, info, emit, modify.
  destruct (ensure_array_registered sheetWorkerCompleted
              (set_console (λ c, c ++ [(INFO, OnSheetWorkerCompletedCalled)]) w))
    as (a & w1 & -> & _ & _ & _ & _ & Hgrows & _).
  { left. apply sheetWorkerCompleted_plain. }
  unfold push_to, push, modify. eexists. split; [done|].
  eapply grows_trans; [|apply push_grows].
  intros b l Hl. by apply Hgrows.
Qed.

(** The channels [run_script] subscribes to have two segments. *)
Lemma below_late_plain eventName : "late:" +:+ eventName ∉ Object_prototype_names.
Proof. apply (join_colon_plain "late" eventName []). Qed.

Lemma run_script_grows h rest (w : World Script) :
  ∃ w', run_script h rest w = Normal tt w' ∧ grows w w'.
Proof.
  destruct h as [|eventName next|next]; cbn [run_script].
  - exists w. split; [done | apply grows_refl].
  - apply on_grows. left. apply below_late_plain.
  - apply onSheetWorkerCompleted_grows.
Qed.

Lemma run_script_returns h rest (w : World Script) :
  ∃ w', run_script h rest w = Normal tt w'.
Proof. destruct (run_script_grows h rest w) as (w' & ? & _). by exists w'. Qed.

Lemma run_quiet_same_registry h rest (w : World Quiet) :
  ∃ w', run_quiet h rest w = Normal tt w' ∧ same_registry w w'.
Proof.
  destruct h as [this key]. simpl.
  destruct (write_keys this [(key, default VUndefined (head rest))] [key] w)
    as (w' & Hrun & Hw).
  exists w'. split; [exact Hrun|]. destruct Hw. by split.
Qed.

Lemma run_quiet_returns h rest (w : World Quiet) :
  ∃ w', run_quiet h rest w = Normal tt w'.
Proof. destruct (run_quiet_same_registry h rest w) as (w' & ? & _). by exists w'. Qed.

Lemma run_quiet_same h rest (w w' : World Quiet) :
  run_quiet h rest w = Normal tt w' → same_registry w w'.
Proof.
  intros Hrun. destruct (run_quiet_same_registry h rest w) as (w'' & Hrun' & Hsame).
  rewrite Hrun in Hrun'. by injection Hrun' as ->.
Qed.

Lemma run_quiet_grows h rest (w : World Quiet) :
  ∃ w', run_quiet h rest w = Normal tt w' ∧ grows w w'.
Proof.
  destruct (run_quiet_same_registry h rest w) as (w' & ? & Hsame).
  exists w'. split; [done|]. by apply same_registry_grows.
Qed.
End FixtureFacts.

(** ** Concrete runs *)

Section Closed.
Context `{JsRuntime} {Handler : Type}.

(** C1.  In a new library instance, create a character and call
    [remove] on it.  The instance is the one the pool holds under its
    id, and [remove] refuses: it returns [undefined], logs the
    can't-remove error, leaves the pool as it was, and [getAllObjs]
    still lists the instance. *)
Theorem remove_refuses_the_registered_character :
  ∃ e (w1 w2 : World Handler),
    one_character = Normal e w1
    ∧ pool w1 !! "x-1" = Some e
    ∧ remove e w1 = Normal None w2
    ∧ console w2 = [(ERROR, CantRemove (VStr "x-1"))]
    ∧ pool w2 = pool w1
    ∧ getAllObjs w2 = Normal [e] w2.
Proof.
  exists 0, (final one_character),
    (set_console (λ c, c ++ [(ERROR, CantRemove (VStr "x-1"))]) (final one_character)).
  split_and!; by vm_compute.
Qed.

(** C2.  In a new library instance, create a character: [getAllObjs]
    lists it and its [type] field is [character].  [findObjs] with the
    pattern [{ type: "character" }] and case sensitivity does not return
    it: the call throws [ReferenceError] at its first statement, and the
    filter it was about to run, [MOCKS.filterObjs] with its test, returns
    the empty list. *)
Theorem findObjs_misses_the_created_character :
  ∃ e (w1 : World Handler),
    one_character = Normal e w1
    ∧ getAllObjs w1 = Normal [e] w1
    ∧ field e "type" w1 = VStr "character"
    ∧ findObjs type_character false w1 = Throw (ReferenceError "filterObjs") w1
    ∧ filterObjs (findObjs_test type_character false) w1 = Normal [] w1.
Proof.
  exists 0, (final one_character). split_and!; by vm_compute.
Qed.
End Closed.

(** With an id taken by a later instance, [remove] on the earlier one goes
    through, and it is the later instance that leaves the pool. *)
Example remove_evicts_the_other_instance :
  ∃ (w w' : World Quiet),
    (new_Roll20Object "x-1" {["_id" := VStr "a"]} ;;
     new_Roll20Object "x-2" {["_id" := VStr "a"]}) initial = Normal 1 w
    ∧ pool w !! "a" = Some 1
    ∧ remove 0 w = Normal (Some 0) w'
    ∧ pool w' = ∅.
Proof. do 2 eexists. split_and!; by vm_compute. Qed.

Example fire_two_waiting :
  ∃ w', _fireEvent run_script sheetWorkerCompleted [] two_waiting
        = Normal [(Stop, []); (SubscribeOnce (Subscribe "late" Stop), [])] w'
    ∧ registered sheetWorkerCompleted w' = []
    ∧ registered "late:late" w' = [].
Proof. eexists. split_and!; by vm_compute. Qed.

(** During that fire the second callback pushes its subscription onto the
    array being called. *)
Example late_subscription_is_pushed :
  ∃ w', run_script (SubscribeOnce (Subscribe "late" Stop)) [] two_waiting = Normal tt w'
    ∧ registered sheetWorkerCompleted w'
      = [Stop; SubscribeOnce (Subscribe "late" Stop); Subscribe "late" Stop].
Proof. eexists. split_and!; by vm_compute. Qed.

Example levels_a_b_c : levels "a:b:c" = ["a:b:c"; "a:b"; "a"].
Proof. by vm_compute. Qed.

Example fire_chat_message :
  ∃ w', _fireEvent run_quiet "chat:message" [VStr "Foo!"] three_channels
        = Normal [(Store 0 "heard_message", [VStr "Foo!"]);
                  (Store 0 "heard_chat", [VStr "Foo!"])] w'
    ∧ field 0 "heard_message" w' = VStr "Foo!"
    ∧ field 0 "heard_chat" w' = VStr "Foo!"
    ∧ field 0 "heard_z" w' = VUndefined.
Proof. eexists. split_and!; by vm_compute. Qed.

(** In a new library instance nothing is registered: a fire of [chat]
    calls nothing and returns, a fire of [toString] throws. *)
Example fire_toString_in_a_new_instance :
  _fireEvent run_quiet "chat" [] initial
  = Normal [] (set_console (λ _, [(TRACE, FireEvent "chat" []);
                                  (INFO, FiringEvent "chat" [])]) initial)
  ∧ _fireEvent run_quiet "toString" [] initial
    = Throw (TypeError forEach_is_not_a_function)
        (set_console (λ _, [(TRACE, FireEvent "toString" []);
                            (INFO, FiringEvent "toString" [])]) initial).
Proof. split; by vm_compute. Qed.

(** So does a subscription to [constructor], where one to [chat] is
    taken. *)
Example on_constructor_in_a_new_instance :
  on "constructor" (Store 0 "heard") initial
  = Throw (TypeError push_is_not_a_function) initial
  ∧ ∃ w', on "chat" (Store 0 "heard") initial = Normal tt w'
          ∧ registered "chat" w' = [Store 0 "heard"].
Proof. split; [by vm_compute|]. eexists. split; by vm_compute. Qed.

(** [setWithWorker] on [attribute_waiting]: the field is written, the
    callback is called with no argument, and nothing is left waiting. *)
Example setWithWorker_calls_the_waiting_callback :
  ∃ w', setWithWorker run_quiet 0 [("current", VNum 3)] attribute_waiting
        = Normal tt w'
    ∧ _obj 0 attribute_waiting !! "done" = None
    ∧ _obj 0 w' !! "done" = Some VUndefined
    ∧ _obj 0 w' !! "current" = Some (VNum 3)
    ∧ registered sheetWorkerCompleted attribute_waiting = [Store 0 "done"]
    ∧ registered sheetWorkerCompleted w' = [].
Proof. eexists. split_and!; by vm_compute. Qed.

Example bound_createObj :
  bound demo_api "createObj" = Some "logged(mock createObj)"
  ∧ bound demo_api "sendPing" = Some "mock sendPing"
  ∧ bound demo_api "_campaign" = None.
Proof. split_and!; by vm_compute. Qed.

(** A [sendChat] defined by the object under the empty name is adopted;
    one defined by the origin itself is not. *)
Example bound_host_sendChat :
  bound (bind_all demo_mock (demo_wrapper "logged") []
           [("sendChat", demo_wrapper "checked")]
           (topLevelScope_of (Scopes.Object [(EmptyString, Scopes.empty)])
              (λ path, if bool_decide (path = [EmptyString])
                       then {["sendChat" := "host sendChat"]} else ∅))) "sendChat"
  = Some "checked(host sendChat)"
  ∧ bound (bind_all demo_mock (demo_wrapper "logged") []
             [("sendChat", demo_wrapper "checked")]
             (topLevelScope_of Scopes.empty demo_host_members)) "sendChat"
    = Some "checked(mock sendChat)".
Proof. split; by vm_compute. Qed.


(** The fire of C3 on [two_waiting], with the handlers of [run_script]. *)
Lemma fire_sheetWorkerCompleted_two_waiting :
  (∀ h rest (w : World Script), ∃ w', run_script h rest w = Normal tt w' ∧ grows w w')
  ∧ _fireEvent run_script sheetWorkerCompleted [] two_waiting
    = drain run_script [] (registered sheetWorkerCompleted two_waiting) two_waiting
  ∧ ∃ w', _fireEvent run_script sheetWorkerCompleted [] two_waiting
          = Normal (calls_of [] (registered sheetWorkerCompleted two_waiting)) w'
      ∧ registered sheetWorkerCompleted w' = []
      ∧ (∀ rest', _fireEvent run_script sheetWorkerCompleted rest' w'
                  = drain run_script rest' [] w'
                  ∧ ∃ w'', _fireEvent run_script sheetWorkerCompleted rest' w'
                           = Normal [] w''
                           ∧ registered sheetWorkerCompleted w'' = []).
Proof.
  split; [exact run_script_grows|].
  apply (fire_sheetWorkerCompleted_calls_each_once_then_clears run_script [] two_waiting).
  exact run_script_grows.
Defined.

(** The fire of C10 on [two_waiting]: its second callback subscribes a
    third during the fire. *)
Lemma fire_discards_the_late_subscription :
  (∀ h rest (w : World Script), ∃ w', run_script h rest w = Normal tt w')
  ∧ ∃ calls w', _fireEvent run_script sheetWorkerCompleted [] two_waiting = Normal calls w'
      ∧ registered sheetWorkerCompleted w' = []
      ∧ (∀ rest', ∃ w'', _fireEvent run_script sheetWorkerCompleted rest' w' = Normal [] w'').
Proof.
  split; [exact run_script_returns|].
  apply (fire_sheetWorkerCompleted_discards_what_handlers_register run_script [] two_waiting).
  exact run_script_returns.
Defined.

(** The cascade of C4 on [three_channels]: [chat:message] reaches the
    handlers of [chat:message], then those of [chat]; [toString:message]
    ends in a [TypeError]. *)
Lemma fire_chat_message_cascades :
  (∀ h rest (w w' : World Quiet), run_quiet h rest w = Normal tt w' → same_registry w w')
  ∧ _fireEvent run_quiet "chat:message" [VStr "Foo!"] three_channels
    = visit_all run_quiet "chat:message" [VStr "Foo!"] three_channels
        ["chat:message"; "chat"] three_channels
  ∧ (∃ w', _fireEvent run_quiet "chat:message" [VStr "Foo!"] three_channels
           = Normal (calls_of [VStr "Foo!"] (registered "chat:message" three_channels)
                     ++ calls_of [VStr "Foo!"] (registered "chat" three_channels)) w')
  ∧ (∃ w', _fireEvent run_quiet "toString:message" [VStr "Foo!"] three_channels
           = Throw (TypeError forEach_is_not_a_function) w').
Proof.
  split; [exact run_quiet_same|].
  destruct (fire_cascades_from_most_to_least_specific run_quiet run_quiet_same)
    as (_ & Htwo & Hreturning).
  destruct (Hreturning run_quiet_returns) as (_ & Hplain & Hinherited).
  split_and!.
  - apply (Htwo "chat" "message"); reflexivity.
  - apply (Hplain "chat" "message"); [reflexivity|reflexivity|].
    apply (bool_decide_unpack _). by vm_compute.
  - apply (Hinherited "toString" "message"); [reflexivity|reflexivity| |reflexivity].
    apply (bool_decide_unpack _). by vm_compute.
Defined.

(** The binding of C9 for [sendChat] in a host whose top-level object
    defines [sendChat] and holds nothing under the empty name: the mock is
    installed, with the wrapper of [cfg.wrappers] around it. *)
Lemma sendChat_bound_through_its_wrapper :
  "sendChat" ∈ (MOCKS demo_mock []).*1
  ∧ ("sendChat" ∉ Object_prototype_names)
  ∧ demo_host_members [] !! "sendChat" = Some "host sendChat"
  ∧ bound (bind_all demo_mock (demo_wrapper "logged") []
             [("sendChat", demo_wrapper "checked")]
             (topLevelScope_of Scopes.empty demo_host_members)) "sendChat"
    = Some "checked(mock sendChat)".
Proof.
  assert ("sendChat" ∈ (MOCKS demo_mock []).*1) as Hin.
  { apply (bool_decide_unpack _). vm_compute. exact I. }
  assert ("sendChat" ∉ Object_prototype_names) as Hplain.
  { apply (bool_decide_unpack _). vm_compute. exact I. }
  split_and!; [exact Hin|exact Hplain|reflexivity|].
  destruct (binding_adopts_what_getScope_returns_or_the_mock_then_wraps demo_mock
              (demo_wrapper "logged") [] [("sendChat", demo_wrapper "checked")]
              Scopes.empty demo_host_members "sendChat" Hin Hplain)
    as (_ & _ & _ & _ & _ & _ & Hmock).
  rewrite (Hmock eq_refl "host sendChat" eq_refl). vm_compute. reflexivity.
Defined.

(** * More properties *)

(** ** Instances and the pool *)

Section MoreEntityFacts.
Context `{JsRuntime} {Handler : Type}.
Implicit Types (w : World Handler) (this : Roll20Object) (key : string).

Lemma new_Roll20Object_unfold uuid (obj : Bag) w :
  let this := fresh (dom (heap w)) in
  let _type := js_or (default VUndefined (obj !! "_type"))
                     (default VUndefined (obj !! "type")) in
  let _id := js_or (default VUndefined (obj !! "_id")) (VStr uuid) in
  new_Roll20Object uuid obj w
  = Normal this
      (mkWorld (<[ToString _id := this]> (pool w))
               (<[this := <["_id" := _id]> (<["_type" := _type]> obj)]> (heap w))
               (_handlers w) (arrays w) (console w)).
Proof.
  intros this _type _id.
  unfold new_Roll20Object, assign, mbind, M_bind, gets, modify, mret, M_ret.
  rewrite !bool_decide_eq_false_2 by (by intros [? _]).
  unfold field, _obj, set_heap, set_pool.
  cbn [heap pool _handlers arrays console].
  rewrite !lookup_total_insert_eq, !insert_insert_eq.
  rewrite lookup_insert_eq, (lookup_insert_ne _ "_type" "_id") by done.
  cbn [default]. done.
Qed.

Lemma fresh_instance w : heap w !! fresh (dom (heap w)) = None.
Proof. apply not_elem_of_dom, is_fresh. Qed.

Lemma new_Roll20Object_effect uuid (obj : Bag) w :
  ∃ this w', new_Roll20Object uuid obj w = Normal this w'
    ∧ heap w !! this = None
    ∧ field this "_id" w' = js_or (default VUndefined (obj !! "_id")) (VStr uuid)
    ∧ field this "_type" w'
      = js_or (default VUndefined (obj !! "_type")) (default VUndefined (obj !! "type"))
    ∧ (∀ key, key ≠ "_id" → key ≠ "_type" → _obj this w' !! key = obj !! key)
    ∧ pool w' !! ToString (field this "_id" w') = Some this
    ∧ (∀ k, k ≠ ToString (field this "_id" w') → pool w' !! k = pool w !! k)
    ∧ (∀ other, other ≠ this → heap w' !! other = heap w !! other)
    ∧ _handlers w' = _handlers w ∧ arrays w' = arrays w ∧ console w' = console w.
Proof.
  eexists _, _. split; [apply new_Roll20Object_unfold|].
  unfold field, _obj. cbn [heap pool _handlers arrays console].
  rewrite !lookup_total_insert_eq, lookup_insert_eq.
  rewrite (lookup_insert_ne _ "_id" "_type"), lookup_insert_eq by done.
  cbn [default]. split_and!; try done.
  - apply fresh_instance.
  - intros key Hid Htype. by rewrite !lookup_insert_ne.
  - by rewrite lookup_insert_eq.
  - intros k Hk. by rewrite lookup_insert_ne.
  - intros other Hother. by rewrite lookup_insert_ne.
Qed.

(** X1.  With an id other than [__proto__], the constructor does not
    throw.  It makes an instance no earlier instance is, whose [_id] is the
    initializer's when that is truthy and the value of [util.uuid()]
    otherwise, whose [_type] is the initializer's [_type] when that is
    truthy and its [type] otherwise, and whose other fields are the
    initializer's; it puts the instance in the pool under its [_id], and
    changes no other pool entry, no handler and no log. *)
Theorem new_Roll20Object_registers_the_instance uuid (obj : Bag) w :
  ToString (js_or (default VUndefined (obj !! "_id")) (VStr uuid)) ≠ "__proto__" →
  ∃ this w', new_Roll20Object uuid obj w = Normal this w'
    ∧ heap w !! this = None
    ∧ field this "_id" w' = js_or (default VUndefined (obj !! "_id")) (VStr uuid)
    ∧ field this "_type" w'
      = js_or (default VUndefined (obj !! "_type")) (default VUndefined (obj !! "type"))
    ∧ (∀ key, key ≠ "_id" → key ≠ "_type" → _obj this w' !! key = obj !! key)
    ∧ pool w' !! ToString (field this "_id" w') = Some this
    ∧ (∀ k, k ≠ ToString (field this "_id" w') → pool w' !! k = pool w !! k)
    ∧ _handlers w' = _handlers w ∧ arrays w' = arrays w ∧ console w' = console w.
Proof.
  intros _.
  destruct (new_Roll20Object_effect uuid obj w)
    as (this & w' & Hnew & Hfresh & Hid & Htype & Hrest & Hpool & Hkeys & _
        & Hhandlers & Harrays & Hconsole).
  exists this, w'. by split_and!.
Qed.

Lemma createObj_unfold uuid type (obj : Bag) w :
  createObj uuid type obj w = new_Roll20Object uuid (<["type" := VStr type]> obj) w.
Proof. done. Qed.

(** X2.  With an id other than [__proto__], [createObj] does not throw.
    The instance it returns has the [type] it was asked for, whatever
    [type] the fields given say; without an [_id] among the fields given
    its id is the value of [util.uuid()]; and [getAllObjs] then lists
    it. *)
Theorem createObj_result_is_listed uuid type (obj : Bag) w :
  ToString (js_or (default VUndefined (obj !! "_id")) (VStr uuid)) ≠ "__proto__" →
  ∃ this w', createObj uuid type obj w = Normal this w'
    ∧ field this "type" w' = VStr type
    ∧ (obj !! "_id" = None → field this "_id" w' = VStr uuid ∧ pool w' !! uuid = Some this)
    ∧ (∃ all, getAllObjs w' = Normal all w' ∧ this ∈ all).
Proof.
  intros _.
  destruct (new_Roll20Object_effect uuid (<["type" := VStr type]> obj) w)
    as (this & w' & Hnew & _ & Hid & _ & Hrest & Hpool & _).
  exists this, w'. split_and!.
  - by rewrite createObj_unfold.
  - unfold field. by rewrite Hrest, lookup_insert_eq.
  - intros Hnone. rewrite lookup_insert_ne, Hnone in Hid by done.
    rewrite Hid in Hpool. by split.
  - apply getAllObjs_elem. eauto.
Qed.

(** X3.  The constructor does not look whether the id is taken.  When the
    value of [util.uuid()] is the id of an instance already in the pool,
    [createObj] puts the new instance in its place: the earlier instance,
    held under no other key, is no longer listed by [getAllObjs]. *)
Theorem createObj_replaces_the_holder_of_its_id uuid type (obj : Bag) old w :
  obj !! "_id" = None →
  pool w !! uuid = Some old →
  is_Some (heap w !! old) →
  (∀ k, pool w !! k = Some old → k = uuid) →
  ∃ this w', createObj uuid type obj w = Normal this w'
    ∧ this ≠ old
    ∧ pool w' !! uuid = Some this
    ∧ (∃ all, getAllObjs w' = Normal all w' ∧ this ∈ all ∧ old ∉ all).
Proof.
  intros Hnone Hold [bag Hbag] Honly.
  destruct (new_Roll20Object_effect uuid (<["type" := VStr type]> obj) w)
    as (this & w' & Hnew & Hfresh & Hid & _ & _ & Hpool & Hother & _).
  rewrite lookup_insert_ne, Hnone in Hid by done. cbn in Hid.
  rewrite Hid in Hpool, Hother. cbn in Hpool, Hother.
  assert (this ≠ old) as Hne by (intros ->; congruence).
  exists this, w'. split_and!; [by rewrite createObj_unfold | done | done |].
  eexists. split; [done|]. split.
  - apply list_elem_of_fmap. exists (uuid, this). split; [done|].
    by apply elem_of_map_to_list.
  - intros ([k r] & Heq & Hin%elem_of_map_to_list)%list_elem_of_fmap.
    cbn in Heq. subst r.
    destruct (decide (k = uuid)) as [->|Hk]; [congruence|].
    rewrite Hother in Hin by done. by apply Hk, Honly.
Qed.

Lemma set_unfold this (changesOrKey : string + Batch) value w :
  set this changesOrKey value w
  = let allChanges : Batch :=
      match changesOrKey with inl key => [(key, value)] | inr changes => changes end in
    forEach (allChanges.*1) (write_key this allChanges) w.
Proof. done. Qed.



Lemma get_unfold_plain this key w :
  ¬ (async_type this w ∧ async_field key) →
  get this key None w = Normal (field this key w) w.
Proof.
  intros Hsync.
  pose proof (async_type_indexOf this w) as Ht.
  pose proof (async_field_indexOf key) as Hf.
  unfold get, mbind, M_bind, gets, mret, M_ret, throw. simpl.
  repeat case_bool_decide; simpl; tauto.
Qed.

Lemma get_unfold_callback this key cb w :
  get this key (Some cb) w = cb (field this key w) w.
Proof.
  unfold get, mbind, M_bind, gets, mret, M_ret, throw. simpl.
  repeat case_bool_decide; simpl; done.
Qed.

(** X5.  What [set(key, value)] writes, [get(key)] reads back: for a key
    that is not immutable, and is not a [__proto__] the instance has no
    field of its own under, after [set] the field holds the value, so [get]
    with a callback hands the value to the callback, and [get] without one
    returns it unless the kind and the key make the read asynchronous. *)
Theorem set_then_get_reads_the_value this key value w :
  key ∉ IMMUTABLE_KEYS →
  stores this key w →
  ∃ w', set this (inl key) value w = Normal tt w'
    ∧ (∀ cb, get this key (Some cb) w' = cb value w')
    ∧ (¬ (async_type this w ∧ async_field key) → get this key None w' = Normal value w').
Proof.
  intros Hkey Hstores. rewrite set_unfold. cbv zeta.
  destruct (write_keys this [(key, value)] [(key, value)].*1 w)
    as (w' & Hrun & [_ _ _ _ _ Hi _ Hch _]).
  exists w'. split; [exact Hrun|].
  assert (field this key w' = value) as Hfield.
  { unfold field. rewrite Hch; [|by left|done|done]. cbn.
    by rewrite bool_decide_eq_true_2. }
  split.
  - intros cb. by rewrite get_unfold_callback, Hfield.
  - intros Hsync. rewrite get_unfold_plain, Hfield; [done|].
    assert (field this "_type" w' = field this "_type" w) as Htype.
    { unfold field. rewrite Hi; [done|]. unfold IMMUTABLE_KEYS. set_solver. }
    intros [Ht Hf]. apply Hsync. split; [|done].
    unfold async_type in *. by rewrite <- Htype.
Qed.

(** X6.  On an instance whose id is not [__proto__], [remove] does not
    throw and does not touch a field, a handler or any pool entry but the
    one under [this.id]: a removed instance can still be read.  It returns
    [undefined], with the pool as it was, only when the pool holds [this]
    under that id; otherwise it returns [this], the entry under that id is
    gone, and calling [remove] again does the same and changes nothing
    more. *)
Theorem remove_only_empties_the_slot_of_its_id this w :
  ToString (field this "_id" w) ≠ "__proto__" →
  ∃ r w', remove this w = Normal r w'
    ∧ heap w' = heap w ∧ _handlers w' = _handlers w ∧ arrays w' = arrays w
    ∧ (∀ k, k ≠ ToString (field this "_id" w) → pool w' !! k = pool w !! k)
    ∧ (r = None ∨ r = Some this)
    ∧ (r = None →
         pool w !! ToString (field this "_id" w) = Some this ∧ pool w' = pool w)
    ∧ (r = Some this →
         pool w !! ToString (field this "_id" w) ≠ Some this
         ∧ pool w' !! ToString (field this "_id" w) = None
         ∧ remove this w' = Normal (Some this) w').
Proof.
  intros _.
  destruct (decide (pool w !! ToString (field this "_id" w) = Some this)) as [Hocc|Hocc].
  - eexists _, _. split; [by apply remove_occupant|].
    cbn [heap _handlers arrays pool set_console].
    split_and!; try done. by left.
  - eexists _, _. split; [by apply remove_not_occupant|].
    cbn [heap _handlers arrays pool set_pool]. split_and!; try done.
    + intros k Hk. by rewrite lookup_delete_ne.
    + by right.
    + intros _. split_and!; [done | by rewrite lookup_delete_eq |].
      rewrite remove_not_occupant.
      * unfold set_pool, field, _obj. cbn [heap _handlers arrays pool console].
        by rewrite delete_delete_eq.
      * unfold field, _obj. cbn [heap pool set_pool]. by rewrite lookup_delete_eq.
Qed.

Lemma filter_cb_reads (cb : Roll20Object → M Handler bool) (p : Roll20Object → bool)
    arr w :
  (∀ x, cb x w = Normal (p x) w) →
  filter_cb cb arr w = Normal (filter (λ x, p x) arr) w.
Proof.
  intros Hcb. induction arr as [|x arr IH]; [done|].
  cbn [filter_cb]. unfold mbind, M_bind. rewrite Hcb.
  fold (@mbind _ (@M_bind Handler)). unfold mbind, M_bind. rewrite IH.
  unfold mret, M_ret. f_equal.
  destruct (p x) eqn:Hp.
  - by rewrite filter_cons_True by (by rewrite Hp).
  - rewrite filter_cons_False; [done|]. rewrite Hp. cbn. tauto.
Qed.

(** X8.  With a callback that only reads the store, [filterObjs] returns
    the instances [getAllObjs] lists for which the callback answers true,
    in the same order, and leaves the store as it was. *)
Theorem filterObjs_keeps_what_the_callback_accepts
    (cb : Roll20Object → M Handler bool) (p : World Handler → Roll20Object → bool) w :
  (∀ x w, cb x w = Normal (p w x) w) →
  ∃ all, getAllObjs w = Normal all w
    ∧ filterObjs cb w = Normal (filter (λ x, p w x) all) w.
Proof.
  intros Hcb. eexists. split; [done|].
  unfold filterObjs, mbind, M_bind, gets. by apply filter_cb_reads.
Qed.

(** X9.  On an instance with no field [toString] of its own, the test
    [findObjs] builds for [filterObjs] does not throw, does not change the
    store, and answers by one comparison: the instance's [_obj] object
    against the pattern's [_obj] entry, with [==].  The other fields of
    the instance, the other entries of the pattern and the
    [caseInsensitive] flag have no part in the answer. *)
Theorem findObjs_test_compares_the_bag_with_the_pattern_entry
    (obj : Bag) caseInsensitive this w :
  _obj this w !! "toString" = None →
  findObjs_test obj caseInsensitive this w
  = Normal (loose_eq (VObj this) (default VUndefined (obj !! "_obj"))) w.
Proof.
  intros _. unfold findObjs_test, Object_keys_Roll20Object. cbn [findObjs_keys].
  unfold own_property. rewrite bool_decide_eq_true_2 by done.
  destruct (obj !! "_obj") as [v|]; [|by destruct caseInsensitive].
  change (default VUndefined (Some v)) with v.
  destruct caseInsensitive; cbn [andb].
  - destruct v as [| |b|n|s|o]; cbn [typeof_string orb toString_method];
      unfold mbind, M_bind, mret, M_ret, loose_neq; cbn [ToString];
      try (by destruct (loose_eq _ _)).
    cbn [loose_eq]. repeat case_bool_decide; try done. congruence.
  - unfold mbind, M_bind, mret, M_ret, loose_neq. by destruct (loose_eq _ _).
Qed.
End MoreEntityFacts.


(** ** The names a fire visits *)

Lemma join_split_colon s : join_colon (split_colon s) = s.
Proof.
  unfold join_colon. induction s as [|c s IH]; [done|]. cbn [split_colon].
  pose proof (split_colon_nonempty s) as Hne.
  case_bool_decide as Hc.
  - subst c. destruct (split_colon s) as [|seg segs]; [done|].
    cbn [String.concat] in *. by rewrite IH.
  - destruct (split_colon s) as [|seg segs]; [done|].
    destruct segs as [|seg' segs]; cbn [String.concat] in *; by rewrite <- IH.
Qed.

(** ** The registry *)

Section MoreEventFacts.
Context `{JsRuntime} {Handler : Type}.
Variable run : Handler → list JsValue → M Handler unit.
Implicit Types (w : World Handler) (rest : list JsValue) (h handler cb : Handler).

Lemma keeps_bind {A B} (m : M Handler A) (f : A → M Handler B) :
  keeps m → (∀ a, keeps (f a)) → keeps (m ≫= f).
Proof.
  intros Hm Hf w Hw. specialize (Hm w Hw). unfold mbind, M_bind.
  destruct (m w) as [a w1|e w1]; [by apply Hf | done].
Qed.

Lemma keeps_ret {A} (a : A) : keeps (mret a : M Handler A).
Proof. by intros w Hw. Qed.

Lemma keeps_gets {A} (f : World Handler → A) : keeps (gets f).
Proof. by intros w Hw. Qed.

Lemma keeps_emit level msg : keeps (emit (Handler := Handler) level msg).
Proof. by intros w Hw. Qed.

Lemma keeps_push a handler :
  keeps (push a handler).
Proof.
  intros w [Hinj Hdom]. split; [done|]. intros n b Hb. cbn.
  destruct (decide (a = b)) as [->|Hne].
  - rewrite lookup_insert_eq. eauto.
  - rewrite lookup_insert_ne by done. by eapply Hdom.
Qed.

Lemma keeps_throw {A} e : keeps (throw e : M Handler A).
Proof. by intros w Hw. Qed.

Lemma keeps_rebind {B} name (elems : list Handler) (f : nat → B) :
  keeps (a ← new_array elems; modify (set_handlers <[name := a]>) ;; mret (f a)).
Proof.
  intros w [Hinj Hdom].
  destruct (new_array_fresh elems w) as (a & Hnew & Hfresh).
  unfold mbind, M_bind. rewrite Hnew. cbn. split; cbn.
  - intros n1 n2 b H1 H2.
    destruct (decide (n1 = name)) as [->|Hn1], (decide (n2 = name)) as [->|Hn2];
      [done| | |].
    + rewrite lookup_insert_eq in H1. rewrite lookup_insert_ne in H2 by done.
      simplify_eq. destruct (Hdom _ _ H2) as [? ?]. congruence.
    + rewrite lookup_insert_eq in H2. rewrite lookup_insert_ne in H1 by done.
      simplify_eq. destruct (Hdom _ _ H1) as [? ?]. congruence.
    + rewrite lookup_insert_ne in H1, H2 by done. by eapply Hinj.
  - intros n b Hb. destruct (decide (a = b)) as [->|Hne].
    + rewrite lookup_insert_eq. eauto.
    + rewrite lookup_insert_ne by done.
      destruct (decide (n = name)) as [->|Hn].
      * rewrite lookup_insert_eq in Hb. congruence.
      * rewrite lookup_insert_ne in Hb by done. by eapply Hdom.
Qed.

Lemma keeps_ensure_array name : keeps (ensure_array (Handler := Handler) name).
Proof.
  intros w Hw. unfold ensure_array, mbind at 1, M_bind at 1, gets at 1.
  destruct (_handlers w !! name) as [a|]; [done|].
  case_bool_decide; [done|]. by apply (keeps_rebind name [] Some).
Qed.

Lemma keeps_push_to held handler : keeps (push_to held handler).
Proof. destruct held as [a|]; [apply keeps_push|apply keeps_throw]. Qed.

Lemma registry_wf_initial : registry_wf (initial (Handler := Handler)).
Proof. split; intros *; cbn; by rewrite lookup_empty. Qed.

Lemma same_registry_wf w w' : same_registry w w' → registry_wf w → registry_wf w'.
Proof. intros [Hh Ha] Hwf. unfold registry_wf. by rewrite Hh, Ha. Qed.

Lemma keeps_on eventName handler : keeps (on eventName handler).
Proof.
  apply keeps_bind; [apply keeps_ensure_array|]. intros held.
  apply keeps_bind; [apply keeps_push_to|]. intros _. apply keeps_emit.
Qed.

Lemma keeps_onSheetWorkerCompleted cb : keeps (onSheetWorkerCompleted cb).
Proof.
  apply keeps_bind; [apply keeps_emit|]. intros _.
  apply keeps_bind; [apply keeps_ensure_array|]. intros held. apply keeps_push_to.
Qed.

Section Keeping.
Hypothesis run_keeps : ∀ h rest, keeps (run h rest).

Lemma keeps_forEach_handler a rest n : ∀ k, keeps (forEach_handler run a rest k n).
Proof.
  induction n as [|n IH]; intros k; [apply keeps_ret|].
  cbn [forEach_handler]. apply keeps_bind; [apply keeps_gets|].
  intros [h|]; [|apply IH].
  apply keeps_bind; [apply run_keeps|]. intros _.
  apply keeps_bind; [apply IH|]. intros calls. apply keeps_ret.
Qed.

Lemma keeps_call_handlers name rest : keeps (call_handlers run name rest).
Proof.
  apply keeps_bind; [apply keeps_gets|]. intros [a|].
  - apply keeps_bind; [apply keeps_gets|]. intros len. apply keeps_forEach_handler.
  - case_bool_decide; [apply keeps_throw|apply keeps_ret].
Qed.

Lemma keeps_cascade subEvents rest n : keeps (cascade run subEvents rest n).
Proof.
  induction n as [|n IH]; [apply keeps_ret|].
  cbn [cascade]. apply keeps_bind; [apply keeps_emit|]. intros _.
  apply keeps_bind; [apply keeps_call_handlers|]. intros calls.
  apply keeps_bind; [apply IH|]. intros more. apply keeps_ret.
Qed.

Lemma keeps_fireEvent eventName rest : keeps (_fireEvent run eventName rest).
Proof.
  apply keeps_bind; [apply keeps_emit|]. intros _.
  case_bool_decide; [|apply keeps_cascade].
  apply keeps_bind; [apply keeps_call_handlers|]. intros calls.
  intros w Hw. pose proof (keeps_rebind eventName [] (λ _, calls) w Hw) as Hk.
  unfold mbind, M_bind in *. destruct (new_array [] w) as [a w1|e w1]; exact Hk.
Qed.

Lemma keeps_use u : keeps (use run u).
Proof.
  destruct u as [eventName handler|cb|eventName rest]; cbn [use].
  - apply keeps_on.
  - apply keeps_onSheetWorkerCompleted.
  - apply keeps_bind; [apply keeps_fireEvent|]. intros calls. apply keeps_ret.
Qed.

Lemma keeps_forEach_use uses : keeps (forEach uses (use run)).
Proof.
  induction uses as [|u uses IH]; [apply keeps_ret|].
  cbn [forEach]. apply keeps_bind; [apply keeps_use|]. by intros _.
Qed.
End Keeping.

(** X11.  The registry stays well formed.  In a new library instance no
    channel has an array; and from any store where no two channel names
    share an array and every array held exists, a run of [on],
    [onSheetWorkerCompleted] and [_fireEvent] calls ends in such a store
    again, also when a handler throws on the way, provided the handlers
    themselves leave the registry well formed. *)
Theorem registry_stays_well_formed (uses : list (Use (Handler := Handler))) w :
  (∀ h rest w, registry_wf w → registry_wf (final (run h rest w))) →
  registry_wf (initial (Handler := Handler))
  ∧ (registry_wf w → registry_wf (final (forEach uses (use run) w))).
Proof.
  intros Hrun. split.
  - apply registry_wf_initial.
  - by apply keeps_forEach_use.
Qed.

(** *** Subscribing *)

Lemma on_effect eventName handler w :
  eventName ∉ Object_prototype_names ∨ is_Some (_handlers w !! eventName) →
  ∃ a w1, ensure_array eventName w = Normal (Some a) w1
    ∧ _handlers w1 !! eventName = Some a
    ∧ registered eventName w1 = registered eventName w
    ∧ (∀ other, other ≠ eventName → registered other w1 = registered other w)
    ∧ pool w1 = pool w ∧ heap w1 = heap w ∧ console w1 = console w
    ∧ on eventName handler w
      = Normal tt (set_console (λ c, c ++ [(INFO, HandlerSet eventName)])
                     (set_arrays (λ m, <[a := default [] (m !! a) ++ [handler]]> m) w1)).
Proof.
  intros Hname.
  destruct (ensure_array_registered eventName w Hname)
    as (a & w1 & Hen & Hn & _ & Hreg & Hother & _ & Hc & Hp & Hh).
  exists a, w1. split_and!; try done.
  unfold on, mbind, M_bind. by rewrite Hen.
Qed.

Lemma push_other name other a handler w :
  registry_wf w → _handlers w !! name = Some a → other ≠ name →
  registered other (set_arrays (λ m, <[a := default [] (m !! a) ++ [handler]]> m) w)
  = registered other w.
Proof.
  intros [Hinj _] Hn Hother. unfold registered. cbn.
  destruct (_handlers w !! other) as [b|] eqn:Hb; [|done].
  rewrite lookup_insert_ne; [done|]. intros ->. by apply Hother, (Hinj _ _ b).
Qed.

(** X10.  [on] does not call the handler.  In a well-formed registry, and
    for a channel name that is no name of a member of [Object.prototype]
    (or that has an array already), it does not throw: it puts the handler
    at the end of the list of its channel and leaves every other channel's
    list, the pool and the instances as they were; it does not look
    whether the handler is already there, so subscribing twice lists the
    handler twice.  For the name of a member of [Object.prototype] with no
    array it throws a [TypeError] and changes nothing. *)
Theorem on_appends_to_its_channel_only eventName handler w :
  registry_wf w →
  (eventName ∉ Object_prototype_names ∨ is_Some (_handlers w !! eventName) →
   ∃ w', on eventName handler w = Normal tt w'
     ∧ registered eventName w' = registered eventName w ++ [handler]
     ∧ (∀ other, other ≠ eventName → registered other w' = registered other w)
     ∧ pool w' = pool w ∧ heap w' = heap w
     ∧ console w' = console w ++ [(INFO, HandlerSet eventName)]
     ∧ (∃ w'', on eventName handler w' = Normal tt w''
          ∧ registered eventName w''
            = registered eventName w ++ [handler; handler]))
  ∧ (eventName ∈ Object_prototype_names → _handlers w !! eventName = None →
     on eventName handler w = Throw (TypeError push_is_not_a_function) w).
Proof.
  intros Hwf. split; [|apply on_inherited].
  intros Hname.
  destruct (on_effect eventName handler w Hname)
    as (a & w1 & Hen & Hn & Hreg & Hother & Hp & Hh & Hc & Hon).
  eexists. split; [exact Hon|]. split_and!.
  - change (registered eventName (set_console ?f ?x)) with (registered eventName x).
    by rewrite (push_registered _ _ _ _ Hn), Hreg.
  - intros other Hne.
    change (registered other (set_console ?f ?x)) with (registered other x).
    pose proof (keeps_ensure_array eventName w Hwf) as Hwf1. rewrite Hen in Hwf1.
    rewrite (push_other eventName other a handler w1 Hwf1 Hn Hne). by apply Hother.
  - done.
  - done.
  - cbn. by rewrite Hc.
  - destruct (on_appends eventName handler
                (set_console (λ c, c ++ [(INFO, HandlerSet eventName)])
                   (set_arrays (λ m, <[a := default [] (m !! a) ++ [handler]]> m) w1)))
      as (w'' & Hon' & Hreg'').
    { right. cbn. rewrite Hn. eauto. }
    exists w''. split; [done|]. rewrite Hreg''.
    change (registered eventName (set_console ?f ?x)) with (registered eventName x).
    by rewrite (push_registered _ _ _ _ Hn), Hreg, <- app_assoc.
Qed.

(** X14.  [on("sheetWorkerCompleted", cb)] queues [cb] as
    [onSheetWorkerCompleted(cb)] does: both end with the same registry,
    pool and instances, and differ only in the line they log. *)
Theorem on_sheetWorkerCompleted_queues_like_onSheetWorkerCompleted cb w :
  ∃ w1 w2, on sheetWorkerCompleted cb w = Normal tt w1
    ∧ onSheetWorkerCompleted cb w = Normal tt w2
    ∧ _handlers w1 = _handlers w2 ∧ arrays w1 = arrays w2
    ∧ pool w1 = pool w2 ∧ heap w1 = heap w2
    ∧ console w1 = console w ++ [(INFO, HandlerSet sheetWorkerCompleted)]
    ∧ console w2 = console w ++ [(INFO, OnSheetWorkerCompletedCalled)].
Proof.
  unfold on, onSheetWorkerCompleted, ensure_array, mbind, M_bind, gets, info, emit,
    modify.
  cbn [_handlers arrays pool heap console set_console set_arrays set_handlers].
  destruct (_handlers w !! sheetWorkerCompleted) as [a|].
  - eexists _, _; split_and!; done.
  - rewrite bool_decide_eq_false_2 by apply sheetWorkerCompleted_plain.
    eexists _, _; split_and!; done.
Qed.

(** *** Firing *)

(** X12.  A subscription hears every more specific event.  For handlers
    that return and leave the registry alone, and a fired channel, other
    than [sheetWorkerCompleted], whose first segment is no name of a member
    of [Object.prototype]: after [on(eventName, handler)], a fire of a
    channel that has [eventName] among its levels visits its levels in
    turn, the level [eventName] with the handlers registered before
    followed by [handler]; it returns, having called [handler] with the
    arguments of the fire. *)
Theorem subscription_hears_every_event_below_it eventName fired handler rest w :
  (∀ h rest w, ∃ w', run h rest w = Normal tt w' ∧ same_registry w w') →
  fired ≠ sheetWorkerCompleted →
  plain_channel fired →
  eventName ∈ levels fired →
  ∃ w1 calls w', on eventName handler w = Normal tt w1
    ∧ _fireEvent run fired rest w1 = visit_all run fired rest w1 (levels fired) w1
    ∧ visit run rest w1 eventName
      = (info (FiringEvent eventName rest) ;;
         run_each run rest (registered eventName w ++ [handler]))
    ∧ _fireEvent run fired rest w1 = Normal calls w'
    ∧ (handler, rest) ∈ calls.
Proof.
  intros Hrun Hne Hplain Hlevel.
  assert (∀ h rest w w', run h rest w = Normal tt w' → same_registry w w') as Hsame.
  { intros h rest0 w0 w' Hr. destruct (Hrun h rest0 w0) as (w'' & Hr' & Hs).
    rewrite Hr in Hr'. by injection Hr' as ->. }
  assert (∀ h rest w, ∃ w', run h rest w = Normal tt w') as Hreturns.
  { intros h rest0 w0. destruct (Hrun h rest0 w0) as (w' & ? & _). by exists w'. }
  pose proof (levels_plain fired eventName Hplain Hlevel) as Hname.
  destruct (on_appends eventName handler w) as (w1 & Hon & Hreg); [by left|].
  destruct (fire_returns run Hsame Hreturns fired rest w1 Hne Hplain)
    as (w' & Hfire & _).
  exists w1, (cascade_calls rest w1 (levels fired)), w'. split_and!; [done| | |done|].
  - by apply fire_runs.
  - unfold visit, run_registered. rewrite bool_decide_eq_false_2 by (by intros [? _]).
    by rewrite Hreg.
  - unfold cascade_calls. apply list_elem_of_In, in_concat.
    exists (calls_of rest (registered eventName w1)). split; apply list_elem_of_In.
    + apply list_elem_of_fmap. by exists eventName.
    + unfold calls_of. rewrite Hreg. apply list_elem_of_fmap. exists handler.
      split; [done|]. apply elem_of_app. right. by left.
Qed.

(** X13.  A callback given to [onSheetWorkerCompleted] is called by the
    next fire of [sheetWorkerCompleted], after the callbacks queued before
    it, and by no later fire: the next fire calls the callbacks queued
    before, then this one, and empties the queue; the fire after that
    calls nothing.  (For handlers that return and only push to the handler
    arrays.) *)
Theorem queued_callback_is_called_by_the_next_fire_only cb rest rest' w :
  (∀ h rest w, ∃ w', run h rest w = Normal tt w' ∧ grows w w') →
  ∃ w1 w2 w3, onSheetWorkerCompleted cb w = Normal tt w1
    ∧ _fireEvent run sheetWorkerCompleted rest w1
      = drain run rest (registered sheetWorkerCompleted w ++ [cb]) w1
    ∧ _fireEvent run sheetWorkerCompleted rest w1
      = Normal (calls_of rest (registered sheetWorkerCompleted w ++ [cb])) w2
    ∧ _fireEvent run sheetWorkerCompleted rest' w2 = drain run rest' [] w2
    ∧ _fireEvent run sheetWorkerCompleted rest' w2 = Normal [] w3.
Proof.
  intros Hrun.
  assert (∀ h rest w w', run h rest w = Normal tt w' → grows w w') as Hgrows.
  { intros h rest0 w0 w' Hr. destruct (Hrun h rest0 w0) as (w'' & Hr' & Hg).
    rewrite Hr in Hr'. by injection Hr' as ->. }
  assert (∀ h rest w, ∃ w', run h rest w = Normal tt w') as Hreturns.
  { intros h rest0 w0. destruct (Hrun h rest0 w0) as (w' & ? & _). by exists w'. }
  destruct (onSheetWorkerCompleted_appends cb w) as (w1 & Hq & Hreg).
  pose proof (fire_drains run rest w1 Hgrows) as Hfire. rewrite Hreg in Hfire.
  destruct (drain_returns run rest (registered sheetWorkerCompleted w ++ [cb]) w1
              Hreturns) as (w2 & Hdrain & Hempty).
  destruct (fire_nothing_registered run rest' w2 Hempty) as (Hfire' & w3 & Hw3 & _).
  exists w1, w2, w3. split_and!; [done|done|by rewrite Hfire|done|done].
Qed.

(** X15.  Only the exact name [sheetWorkerCompleted] drains the queue.  A
    fire of a channel below it, [sheetWorkerCompleted:y], is an ordinary
    cascade: it calls the handlers of that channel, then the callbacks
    queued on [sheetWorkerCompleted], and leaves them queued.  (For
    handlers that return and leave the registry alone.) *)
Theorem firing_below_sheetWorkerCompleted_keeps_the_queue y rest w :
  (∀ h rest w, ∃ w', run h rest w = Normal tt w' ∧ same_registry w w') →
  no_colon y →
  _fireEvent run (sheetWorkerCompleted +:+ ":" +:+ y) rest w
  = visit_all run (sheetWorkerCompleted +:+ ":" +:+ y) rest w
      [sheetWorkerCompleted +:+ ":" +:+ y; sheetWorkerCompleted] w
  ∧ ∃ w', _fireEvent run (sheetWorkerCompleted +:+ ":" +:+ y) rest w
          = Normal (calls_of rest (registered (sheetWorkerCompleted +:+ ":" +:+ y) w)
                    ++ calls_of rest (registered sheetWorkerCompleted w)) w'
      ∧ registered sheetWorkerCompleted w' = registered sheetWorkerCompleted w.
Proof.
  intros Hrun Hy.
  assert (∀ h rest w w', run h rest w = Normal tt w' → same_registry w w') as Hsame.
  { intros h rest0 w0 w' Hr. destruct (Hrun h rest0 w0) as (w'' & Hr' & Hs).
    rewrite Hr in Hr'. by injection Hr' as ->. }
  assert (∀ h rest w, ∃ w', run h rest w = Normal tt w') as Hreturns.
  { intros h rest0 w0. destruct (Hrun h rest0 w0) as (w' & ? & _). by exists w'. }
  assert (sheetWorkerCompleted +:+ ":" +:+ y ≠ sheetWorkerCompleted) as Hne
    by by apply two_segments_ordinary.
  split.
  - rewrite (fire_runs run Hsame) by done. by rewrite levels_two.
  - destruct (fire_returns run Hsame Hreturns (sheetWorkerCompleted +:+ ":" +:+ y)
                rest w Hne) as (w' & Hfire & Hsame').
    { apply two_segments_plain; [done|apply sheetWorkerCompleted_plain]. }
    exists w'. split; [|by apply registered_same].
    rewrite Hfire, levels_two by done. unfold cascade_calls. cbn.
    by rewrite app_nil_r.
Qed.

Lemma forEach_handler_rethrows a rest n : ∀ k w e w',
  forEach_handler run a rest k n w = Throw e w' →
  ∃ h w1, run h rest w1 = Throw e w'.
Proof.
  induction n as [|n IH]; intros k w e w'; [done|].
  cbn [forEach_handler]. unfold mbind at 1, M_bind at 1, gets at 1.
  destruct (arrays w !! a ≫= (.!! k)) as [h|]; [|apply IH].
  unfold mbind at 1, M_bind at 1.
  destruct (run h rest w) as [[] w1|e1 w1] eqn:Hrun.
  - unfold mbind, M_bind.
    destruct (forEach_handler run a rest (S k) n w1) as [calls w2|e2 w2] eqn:Hloop;
      [done|]. intros [= -> ->]. by eapply IH.
  - intros [= -> ->]. eauto.
Qed.

Lemma call_handlers_rethrows name rest w e w' :
  call_handlers run name rest w = Throw e w' →
  (∃ h w1, run h rest w1 = Throw e w')
  ∨ (e = TypeError forEach_is_not_a_function ∧ name ∈ Object_prototype_names).
Proof.
  unfold call_handlers, mbind, M_bind, gets.
  destruct (_handlers w !! name) as [a|].
  - intros Hloop. left. by eapply forEach_handler_rethrows.
  - case_bool_decide; [|done]. intros [= <- _]. by right.
Qed.

Lemma cascade_rethrows subEvents rest n : ∀ w e w',
  cascade run subEvents rest n w = Throw e w' →
  (∃ h w1, run h rest w1 = Throw e w')
  ∨ (e = TypeError forEach_is_not_a_function
     ∧ ∃ name, name ∈ levels_of subEvents n ∧ name ∈ Object_prototype_names).
Proof.
  induction n as [|n IH]; intros w e w'; [done|].
  rewrite levels_of_S.
  cbn [cascade]. unfold mbind at 1, M_bind at 1, info, emit, modify.
  unfold mbind at 1, M_bind at 1.
  destruct (call_handlers run _ rest _) as [calls w1|e1 w1] eqn:Hcall.
  - unfold mbind, M_bind.
    destruct (cascade run subEvents rest n w1) as [more w2|e2 w2] eqn:Hmore; [done|].
    intros [= -> ->]. destruct (IH _ _ _ Hmore) as [?|(-> & name & Hin & Hname)].
    + by left.
    + right. split; [done|]. exists name. split; [by right|done].
  - intros [= -> ->].
    destruct (call_handlers_rethrows _ _ _ _ _ Hcall) as [?|[-> Hname]]; [by left|].
    right. split; [done|]. eexists. split; [by left|done].
Qed.

(** A level that is the name of a member of [Object.prototype] is the
    first segment of the name. *)
Lemma levels_inherited eventName name :
  name ∈ levels eventName → name ∈ Object_prototype_names →
  head (split_colon eventName) = Some name.
Proof.
  unfold levels, levels_of. intros Hin Hname.
  apply list_elem_of_fmap in Hin as (k & -> & Hk).
  rewrite elem_of_reverse, elem_of_seq in Hk.
  destruct (split_colon eventName) as [|x [|y l]].
  - simpl in Hk. lia.
  - simpl in Hk. by assert (k = 1) as -> by lia.
  - destruct k as [|[|k]]; [lia|done|].
    cbn [take] in Hname. by apply join_colon_plain in Hname.
Qed.

(** X16.  When a fire throws, either a handler it called threw that very
    error, and the store is the one that handler left, or the error is the
    [TypeError] of a level with no array of its own whose name is that of
    a member of [Object.prototype]: such a level is the first segment of
    the event name.  [_fireEvent] throws nothing else of its own, whatever
    the channel and whatever is or is not registered. *)
Theorem fire_throws_what_a_handler_threw_or_at_an_inherited_name
    eventName rest w e w' :
  _fireEvent run eventName rest w = Throw e w' →
  (∃ h w1, run h rest w1 = Throw e w')
  ∨ (e = TypeError forEach_is_not_a_function
     ∧ ∃ first, head (split_colon eventName) = Some first
                ∧ first ∈ Object_prototype_names).
Proof.
  unfold _fireEvent, mbind at 1, M_bind at 1, trace, emit, modify.
  case_bool_decide as Hname.
  - subst eventName. unfold mbind at 1, M_bind at 1.
    destruct (call_handlers run _ rest _) as [calls w1|e1 w1] eqn:Hcall.
    + unfold mbind, M_bind, new_array, gets, modify, mret, M_ret. done.
    + intros [= -> ->].
      destruct (call_handlers_rethrows _ _ _ _ _ Hcall) as [?|[_ Hin]]; [by left|].
      by destruct sheetWorkerCompleted_plain.
  - intros Hthrow.
    destruct (cascade_rethrows _ _ _ _ _ _ Hthrow) as [?|(-> & name & Hin & Hname')];
      [by left|].
    right. split; [done|]. exists name. split; [|done]. by apply levels_inherited.
Qed.

(** X17.  A callback that throws ends the fire of [sheetWorkerCompleted]
    there: when the first queued callback throws, the fire throws the same
    error from the store that callback left, so the callbacks after it are
    not called and the queue is not emptied by this fire. *)
Theorem failing_first_callback_ends_the_fire h hs rest w e w1 :
  registered sheetWorkerCompleted w = h :: hs →
  run h rest (set_console (λ c, c ++ [(TRACE, FireEvent sheetWorkerCompleted rest)]) w)
  = Throw e w1 →
  _fireEvent run sheetWorkerCompleted rest w = Throw e w1.
Proof.
  intros Hreg Hrun. rewrite fire_unfold_sheetWorkerCompleted.
  set (w0 := set_console _ w) in *.
  assert (call_handlers run sheetWorkerCompleted rest w0 = Throw e w1) as Hcall.
  { unfold call_handlers, mbind, M_bind, gets. unfold registered in Hreg.
    change (_handlers w0) with (_handlers w).
    destruct (_handlers w !! sheetWorkerCompleted) as [a|]; [|done].
    change (arrays w0) with (arrays w).
    destruct (arrays w !! a) as [l|] eqn:Hl; cbn in Hreg; [subst l|done].
    change (length (default [] (Some (h :: hs)))) with (S (length hs)).
    cbn [forEach_handler]. unfold mbind, M_bind, gets. cbv beta.
    change (arrays w0) with (arrays w). rewrite Hl. cbn. by rewrite Hrun. }
  unfold mbind at 1, M_bind at 1. by rewrite Hcall.
Qed.

(** *** The lines a fire logs *)

Lemma call_handlers_nothing name rest w :
  registered name w = [] →
  name ∉ Object_prototype_names ∨ is_Some (_handlers w !! name) →
  call_handlers run name rest w = Normal [] w.
Proof.
  intros Hreg Hname. unfold call_handlers, mbind, M_bind, gets.
  unfold registered in Hreg.
  destruct (_handlers w !! name) as [a|].
  - destruct (arrays w !! a) as [l|]; simpl in *; [by subst l | done].
  - destruct Hname as [Hname|[? [=]]]. by rewrite bool_decide_eq_false_2.
Qed.

Lemma cascade_nothing subEvents rest n : ∀ w,
  (∀ name, name ∈ levels_of subEvents n →
     registered name w = [] ∧ name ∉ Object_prototype_names) →
  ∃ w', cascade run subEvents rest n w = Normal [] w'
    ∧ console w'
      = console w ++ ((λ name, (INFO, FiringEvent name rest)) <$> levels_of subEvents n)
    ∧ same_registry w w' ∧ pool w' = pool w ∧ heap w' = heap w.
Proof.
  induction n as [|n IH]; intros w Hnames.
  { exists w. split_and!; try done. by rewrite app_nil_r. }
  rewrite levels_of_S in Hnames |- *. cbn [cascade].
  set (name := join_colon (take (S n) subEvents)) in *.
  unfold mbind at 1, M_bind at 1, info at 1, emit, modify.
  set (w0 := set_console _ w).
  destruct (Hnames name) as [Hreg Hplain]; [by left|].
  unfold mbind at 1, M_bind at 1.
  rewrite (call_handlers_nothing name rest w0) by (done || by left).
  destruct (IH w0) as (w' & Hrest & Hc & Hsame & Hp & Hh).
  { intros other Hother. apply Hnames. by right. }
  exists w'. unfold mbind, M_bind. rewrite Hrest. split_and!; try done.
  rewrite Hc. cbn. by rewrite <- app_assoc.
Qed.

(** X18.  With nothing registered under any of its levels, a fire of a
    channel other than [sheetWorkerCompleted], whose first segment is no
    name of a member of [Object.prototype], calls nothing and returns,
    having logged its trace line and one line for each level it went
    through, in order and whatever the handlers are.  The levels start at
    the event name itself and end at its first segment, one per segment:
    splitting the name at the colons and joining all the segments again
    gives the name back. *)
Theorem fire_logs_one_line_per_level eventName rest w :
  eventName ≠ sheetWorkerCompleted →
  plain_channel eventName →
  (∀ name, name ∈ levels eventName → registered name w = []) →
  (∃ w', _fireEvent run eventName rest w = Normal [] w'
     ∧ console w'
       = console w ++ (TRACE, FireEvent eventName rest)
                      :: ((λ name, (INFO, FiringEvent name rest)) <$> levels eventName)
     ∧ same_registry w w' ∧ pool w' = pool w ∧ heap w' = heap w)
  ∧ length (levels eventName) = length (split_colon eventName)
  ∧ head (levels eventName) = Some eventName
  ∧ last (levels eventName) = head (split_colon eventName).
Proof.
  intros Hne Hplain Hnothing. split.
  - unfold _fireEvent, mbind at 1, M_bind at 1, trace, emit, modify.
    rewrite bool_decide_eq_false_2 by done. cbv zeta.
    set (w0 := set_console _ w).
    destruct (cascade_nothing (split_colon eventName) rest
                (length (split_colon eventName)) w0)
      as (w' & Hfire & Hc & Hsame & Hp & Hh).
    { intros name Hname. split; [by apply Hnothing|by eapply levels_plain]. }
    exists w'. split_and!; try done.
    rewrite Hc. cbn. by rewrite <- app_assoc.
  - unfold levels. pose proof (join_split_colon eventName) as Hjoin.
    destruct (split_colon eventName) as [|seg segs] eqn:Hsplit.
    { by destruct (split_colon_nonempty eventName). }
    split_and!.
    + unfold levels_of. by rewrite length_fmap, length_reverse, length_seq.
    + cbn [length]. rewrite levels_of_S. cbn [head].
      change (S (length segs)) with (length (seg :: segs)).
      by rewrite firstn_all, Hjoin.
    + unfold levels_of. cbn [length seq]. rewrite reverse_cons, fmap_app, last_app.
      done.
Qed.
End MoreEventFacts.


(** ** The binding layer, continued *)

Section MoreBindingFacts.
Context {Fn : Type}.
Variable mock : string → option Fn.
Variable createObj_wrapper : option Fn → option Fn.
Variable cfg_mocks : list (string * option Fn).
Variable cfg_wrappers : list (string * (option Fn → option Fn)).
Variable topLevelScope : gmap string Fn.

#[local] Abbreviation the_api :=
  (bind_all mock createObj_wrapper cfg_mocks cfg_wrappers topLevelScope).

Lemma entry_spread_put {X} (base : list (string * X)) k x key :
  entry (spread_put base k x) key
  = if decide (key = k) then Some x else entry base key.
Proof.
  induction base as [|[k' x'] base IH]; cbn [spread_put entry].
  - case_bool_decide; case_decide; congruence.
  - case_bool_decide as Hk'; cbn [entry].
    + subst k'. case_bool_decide; case_decide; congruence.
    + rewrite IH. case_bool_decide; case_decide; congruence.
Qed.

Lemma keys_spread_put {X} (base : list (string * X)) k x key :
  key ∈ (spread_put base k x).*1 ↔ key = k ∨ key ∈ base.*1.
Proof.
  induction base as [|[k' x'] base IH]; cbn [spread_put].
  - cbn. rewrite list_elem_of_singleton, elem_of_nil. tauto.
  - case_bool_decide as Hk'; cbn [fmap list_fmap fst].
    + subst k'. rewrite !elem_of_cons. tauto.
    + rewrite !elem_of_cons, IH. tauto.
Qed.

Lemma keys_spread {X} (overrides : list (string * X)) : ∀ base key,
  key ∈ (spread base overrides).*1 ↔ key ∈ base.*1 ∨ key ∈ overrides.*1.
Proof.
  unfold spread.
  induction overrides as [|[k x] overrides IH]; intros base key; cbn [foldl].
  - cbn. rewrite elem_of_nil. tauto.
  - rewrite IH, keys_spread_put. cbn [fmap list_fmap fst]. rewrite elem_of_cons. tauto.
Qed.

Lemma entry_spread_other {X} (overrides : list (string * X)) : ∀ base key,
  key ∉ overrides.*1 → entry (spread base overrides) key = entry base key.
Proof.
  unfold spread.
  induction overrides as [|[k x] overrides IH]; intros base key Hkey; cbn [foldl];
    [done|].
  cbn [fmap list_fmap fst] in Hkey. rewrite not_elem_of_cons in Hkey.
  destruct Hkey as [Hne Hkey]. rewrite IH by done. cbn [fst snd].
  rewrite entry_spread_put. by rewrite decide_False.
Qed.

Lemma entry_spread_override {X} (overrides : list (string * X)) : ∀ base key x,
  NoDup overrides.*1 → (key, x) ∈ overrides →
  entry (spread base overrides) key = Some x.
Proof.
  unfold spread.
  induction overrides as [|[k y] overrides IH]; intros base key x Hnd Hin; cbn [foldl].
  - by apply elem_of_nil in Hin.
  - cbn [fmap list_fmap fst] in Hnd. apply NoDup_cons in Hnd as [Hk Hnd].
    apply elem_of_cons in Hin as [[= -> ->]|Hin].
    + pose proof (entry_spread_other overrides (spread_put base k y) k Hk) as Heq.
      unfold spread in Heq. cbn [fst snd]. rewrite Heq, entry_spread_put.
      by rewrite decide_True.
    + by apply IH.
Qed.

Lemma api_bind_key (b : Binding Fn) key k :
  is_Some (_api (bind_key mock createObj_wrapper cfg_mocks cfg_wrappers topLevelScope
                   b key) !! k)
  ↔ k = key ∨ is_Some (_api b !! k).
Proof.
  unfold bind_key.
  assert (∀ v (b : Binding Fn),
    is_Some (_api (bind key v b) !! k) ↔ k = key ∨ is_Some (_api b !! k)) as Hbind.
  { intros v b'. unfold bind. cbn [_api]. rewrite lookup_insert_is_Some.
    destruct (decide (key = k)) as [->|Hne]; [tauto|].
    split; [intros [?|[_ ?]]; [congruence|tauto] | intros [?|?]; [congruence|tauto]]. }
  destruct (entry (WRAPPERS _ _) key) as [wrapper|];
    destruct (topLevelScope !! key) as [f|];
    try destruct (default None (entry (MOCKS mock cfg_mocks) key)) as [m|];
    rewrite ?Hbind; cbn [say _api]; rewrite ?Hbind; cbn [say _api]; tauto.
Qed.

Lemma api_foldl_bind_key keys : ∀ (b : Binding Fn) k,
  is_Some (_api (foldl (bind_key mock createObj_wrapper cfg_mocks cfg_wrappers
                          topLevelScope) b keys) !! k)
  ↔ k ∈ keys ∨ is_Some (_api b !! k).
Proof.
  induction keys as [|key keys IH]; intros b k; cbn [foldl].
  - rewrite elem_of_nil. tauto.
  - rewrite IH, api_bind_key, elem_of_cons. tauto.
Qed.

(** X19.  [_api] gets a property for exactly the names of the [MOCKS]
    literal and the names of [cfg.mocks].  So a function the host defines
    under any other name is not copied, and a wrapper [cfg.wrappers] gives
    for any other name is never applied. *)
Theorem api_has_the_names_of_the_mocks key :
  is_Some (_api the_api !! key) ↔ key ∈ MOCK_NAMES ∨ key ∈ cfg_mocks.*1.
Proof.
  unfold bind_all. rewrite api_foldl_bind_key. cbn [_api]. rewrite lookup_empty.
  unfold MOCKS. rewrite keys_spread, <- list_fmap_compose.
  change (fst ∘ (λ k, (k, mock k))) with (@Datatypes.id string).
  rewrite list_fmap_id. split; [|tauto]. intros [?|[? [=]]]. done.
Qed.

(** X20.  A mock given in [cfg.mocks] takes the place of the one in the
    literal: for its name, when that is no name of a member of
    [Object.prototype], [_api] gets the configured value (passed through
    the wrapper of the name, if there is one) and not the built-in mock.
    What the inspected scope defines under the name still comes first. *)
Theorem configured_mock_replaces_the_builtin key m :
  NoDup cfg_mocks.*1 →
  (key, m) ∈ cfg_mocks →
  key ∉ Object_prototype_names →
  bound the_api key
  = wrapped createObj_wrapper cfg_wrappers key
      (match topLevelScope !! key with Some f => Some f | None => m end).
Proof.
  intros Hnd Hin _. unfold bind_all. rewrite foldl_bind_key_bound.
  rewrite decide_True.
  - unfold resolved, MOCKS. by rewrite (entry_spread_override _ _ _ m Hnd Hin).
  - unfold MOCKS. apply keys_spread. right.
    apply list_elem_of_fmap. by exists (key, m).
Qed.

(** X21.  A wrapper given in [cfg.wrappers] is the one applied for its
    name: for [createObj] it takes the place of the built-in wrapper and
    is not combined with it. *)
Theorem configured_wrapper_replaces_the_builtin key wrapper :
  NoDup cfg_wrappers.*1 →
  (key, wrapper) ∈ cfg_wrappers →
  key ∈ MOCK_NAMES →
  bound the_api key = wrapper (resolved mock cfg_mocks topLevelScope key).
Proof.
  intros Hnd Hin Hkey. unfold bind_all. rewrite foldl_bind_key_bound.
  rewrite decide_True.
  - unfold wrapped, WRAPPERS. by rewrite (entry_spread_override _ _ _ wrapper Hnd Hin).
  - unfold MOCKS. apply keys_spread. left. rewrite <- list_fmap_compose.
    change (fst ∘ (λ k, (k, mock k))) with (@Datatypes.id string).
    by rewrite list_fmap_id.
Qed.

(** *** [_promote] *)

Lemma promote_lookup keys (api : Binding Fn) : ∀ (s : gmap string (option Fn)) k,
  foldl (λ s key, <[key := bound api key]> s) s keys !! k
  = if decide (k ∈ keys) then Some (bound api k) else s !! k.
Proof.
  induction keys as [|key keys IH]; intros s k; cbn [foldl].
  - rewrite decide_False; [done | by intros ?%elem_of_nil].
  - rewrite IH. destruct (decide (k ∈ keys)) as [Hin|Hnin].
    + rewrite decide_True; [done | by right].
    + destruct (decide (k = key)) as [->|Hne].
      * rewrite decide_True by (by left). by rewrite lookup_insert_eq.
      * rewrite decide_False by (by intros [?|?]%elem_of_cons).
        by rewrite lookup_insert_ne.
Qed.

(** X22.  With promotion keys none of which is the name of a member of
    [Object.prototype], [_promote] writes the promotion keys and nothing
    else: each gets what [_api] holds under it, so a key named in the call
    that [_api] lacks is set to [undefined] over whatever the scope had;
    every other property of the scope is left as it was.  Promoting again
    changes nothing.  Without keys the promotion keys are the names of
    [_api], and the whole of [_api] is copied. *)
Theorem promote_writes_exactly_the_promotion_keys keys (api : Binding Fn)
    (s : gmap string (option Fn)) :
  (∀ k, k ∈ promotionKeys keys api → k ∉ Object_prototype_names) →
  (∀ k, k ∈ promotionKeys keys api → _promote keys api s !! k = Some (bound api k))
  ∧ (∀ k, k ∉ promotionKeys keys api → _promote keys api s !! k = s !! k)
  ∧ _promote keys api (_promote keys api s) = _promote keys api s
  ∧ (keys = None →
     ∀ k, _promote keys api s !! k
          = match _api api !! k with Some v => Some v | None => s !! k end).
Proof.
  intros _. unfold _promote. split_and!.
  - intros k Hk. by rewrite promote_lookup, decide_True.
  - intros k Hk. by rewrite promote_lookup, decide_False.
  - apply map_eq. intros k. rewrite !promote_lookup. by case_decide.
  - intros -> k. rewrite promote_lookup. cbn [promotionKeys].
    destruct (_api api !! k) as [v|] eqn:Hv.
    + rewrite decide_True; [unfold bound; by rewrite Hv|].
      apply list_elem_of_fmap. exists (k, v). split; [done|].
      by apply elem_of_map_to_list.
    + rewrite decide_False; [done|].
      intros ([k' v] & -> & Hin%elem_of_map_to_list)%list_elem_of_fmap.
      cbn in Hv. congruence.
Qed.
End MoreBindingFacts.


(** ** The logger *)

Lemma append_assoc (a b c : string) : (a +:+ b) +:+ c = a +:+ b +:+ c.
Proof.
  induction a as [|ch a IH]; [done|].
  change (String ch ((a +:+ b) +:+ c) = String ch (a +:+ b +:+ c)). by f_equal.
Qed.

Section LoggerFacts.
Context {EmissionFn : Type}.
Variable default_emissionFn : EmissionFn.
Implicit Types (l : Logger.Logger EmissionFn) (level : Logger.Level).

(** X23.  A logger that emits at one level emits at every level at least
    as severe: the call goes to the logger's emission function with the
    message [name [LEVEL]: str] and the other arguments as they were. *)
Theorem logger_emits_every_level_above_one_it_emits l level level' str rest :
  (Logger.LOG_LEVELS level ≤ Logger.LOG_LEVELS level')%Z →
  is_Some (Logger._emit l level str rest) →
  Logger._emit l level' str rest
  = Some (Logger.emissionFn l,
          Logger.name l +:+ " [" +:+ Logger.spelling level' +:+ "]: " +:+ str, rest).
Proof.
  unfold Logger._emit. intros Hle [call Hcall].
  case_bool_decide as Hl; [|done].
  rewrite bool_decide_eq_true_2; [done | lia].
Qed.

(** X24.  A child logger has the threshold of its parent, so it emits
    exactly the levels the parent emits, and tags its messages
    [name.childName]; but it prints with the default emission function,
    whatever function the parent was made with. *)
Theorem child_logger_keeps_the_threshold_not_the_emission_function
    l childName level str rest :
  Logger._emit (Logger.child default_emissionFn l childName) level str rest
  = match Logger._emit l level str rest with
    | Some _ =>
        Some (default_emissionFn,
              Logger.name l +:+ "." +:+ childName
                +:+ " [" +:+ Logger.spelling level +:+ "]: " +:+ str, rest)
    | None => None
    end.
Proof.
  unfold Logger._emit, Logger.child, Logger.getLogger, Logger.logLevelValue.
  cbn [Logger.logLevel Logger.name Logger.emissionFn default]. unfold Datatypes.id.
  case_bool_decide; [|done]. do 2 f_equal. f_equal.
  by rewrite !append_assoc.
Qed.
End LoggerFacts.

(** ** [getScope] *)

Section ScopeFacts.
Import Scopes.
Implicit Types (origin s : Scope) (name : string) (names path : list string).

Lemma prop_put origin name child name' :
  prop (put origin name child) name'
  = if decide (name' = name) then Some child else prop origin name'.
Proof. unfold prop, put. cbn [props]. apply entry_spread_put. Qed.



Lemma reach_empty names : default empty (reach names empty) = empty.
Proof. by destruct names. Qed.

Lemma reach_descend names : ∀ origin,
  reach names (descend names origin) = Some (default empty (reach names origin)).
Proof.
  induction names as [|name names IH]; intros origin; [done|].
  cbn [descend reach]. rewrite prop_put, decide_True by done. cbn [mbind option_bind].
  rewrite IH. f_equal.
  destruct (prop origin name) as [child|] eqn:Hchild.
  - by rewrite Hchild.
  - rewrite prop_put, decide_True by done. cbn [default mbind option_bind].
    apply reach_empty.
Qed.




(** X26.  Called with no argument, [getScope] does not return the origin:
    the empty string splits into one empty name, so the call returns the
    property of the origin named by the empty string, and creates it, as
    an empty object, when the origin has none.  Called with the empty
    array it returns the origin, untouched. *)
Theorem getScope_without_a_name_is_not_the_origin origin :
  (getScope no_argument origin).2 = [EmptyString]
  ∧ reach [EmptyString] (getScope no_argument origin).1
    = Some (default empty (prop origin EmptyString))
  ∧ (prop origin EmptyString = None →
     ∃ s, reach (getScope no_argument origin).2 (getScope no_argument origin).1 = Some s
          ∧ ∀ name, prop s name = None)
  ∧ getScope (inr []) origin = (origin, []).
Proof.
  split_and!; [done | | | done].
  - pose proof (reach_descend [EmptyString] origin) as Hr. cbn [reach] in Hr.
    unfold getScope, no_argument. cbn [fst split_on reach]. rewrite Hr.
    by destruct (prop origin EmptyString).
  - intros Hnone. exists empty. split; [|done].
    unfold getScope, no_argument. cbn [fst snd split_on].
    rewrite reach_descend. cbn [reach]. by rewrite Hnone.
Qed.
End ScopeFacts.

(** ** The GM and the campaign *)

(** X27.  At most one player is GM: after a run of [_setAsGM] calls,
    [playerIsGM] answers true for the id of the last call and for nothing
    else. *)
Theorem only_the_player_last_set_is_GM playerIds playerId _GM asked :
  playerIsGM (_setAsGM_each (playerIds ++ [playerId]) _GM) asked
  = bool_decide (playerId = asked).
Proof.
  unfold _setAsGM_each. by rewrite foldl_app.
Qed.

Section CampaignFacts.
Context `{JsRuntime} {Handler : Type}.

(** X28.  [Campaign] makes its instance once.  The first call registers a
    new instance of type [campaign] under the value of [util.uuid()] and
    keeps it; every later call returns that instance and leaves the store
    as it is. *)
Theorem Campaign_is_made_once uuid (w : World Handler) :
  ∃ campaign w1, Campaign uuid None w = Normal (campaign, Some campaign) w1
    ∧ heap w !! campaign = None
    ∧ field campaign "_type" w1 = VStr TYPES.CAMPAIGN
    ∧ id campaign w1 = Normal (VStr uuid) w1
    ∧ pool w1 !! uuid = Some campaign
    ∧ (∀ uuid' (w2 : World Handler),
         Campaign uuid' (Some campaign) w2 = Normal (campaign, Some campaign) w2).
Proof.
  destruct (new_Roll20Object_effect uuid {["type" := VStr TYPES.CAMPAIGN]} w)
    as (campaign & w1 & Hnew & Hfresh & Hid & Htype & _ & Hpool & _).
  exists campaign, w1.
  rewrite lookup_singleton_ne in Hid by done. cbn in Hid.
  rewrite lookup_singleton_ne, lookup_singleton_eq in Htype by done. cbn in Htype.
  rewrite Hid in Hpool. cbn in Hpool.
  split_and!; try done.
  - unfold Campaign, mbind, M_bind. by rewrite Hnew.
  - unfold id, gets. by rewrite Hid.
Qed.
End CampaignFacts.


(** ** The further fixtures behave *)

Lemma is_character_reads `{JsRuntime} {Handler : Type} (x : Roll20Object)
    (w : World Handler) :
  is_character x w = Normal (strict_eq (field x "_type" w) (VStr "character")) w.
Proof.
  unfold is_character, mbind, M_bind. rewrite get_unfold_plain; [done|].
  by intros [_ [?|[?|?]]].
Qed.

Lemma run_script_keeps h rest : keeps (run_script h rest).
Proof.
  destruct h as [|eventName next|next]; cbn [run_script].
  - apply keeps_ret.
  - apply keeps_on.
  - apply keeps_onSheetWorkerCompleted.
Qed.

Lemma pool_one_character :
  pool (final (one_character (Handler := Quiet))) = {["x-1" := 0]}.
Proof. by vm_compute. Qed.

(** ** Concrete runs of the further properties *)

(** X1 for an initializer with a [type] and no [_id], in a new library
    instance. *)
Lemma new_character_is_registered :
  ∃ this w', new_Roll20Object "x-1" {["type" := VStr "character"]}
               (initial (Handler := Quiet)) = Normal this w'
    ∧ field this "_id" w' = VStr "x-1"
    ∧ field this "_type" w' = VStr "character"
    ∧ pool w' !! "x-1" = Some this.
Proof.
  destruct (new_Roll20Object_registers_the_instance "x-1" {["type" := VStr "character"]}
              (initial (Handler := Quiet)))
    as (this & w' & Hnew & _ & Hid & Htype & _ & Hpool & _).
  - vm_compute. discriminate.
  - exists this, w'. rewrite Hid in Hpool. by split_and!.
Defined.

(** X2 for the character of [one_character]. *)
Lemma created_character_is_listed :
  ∃ this w', createObj "x-1" "character" ∅ (initial (Handler := Quiet)) = Normal this w'
    ∧ field this "type" w' = VStr "character"
    ∧ (∃ all, getAllObjs w' = Normal all w' ∧ this ∈ all).
Proof.
  destruct (createObj_result_is_listed "x-1" "character" ∅ (initial (Handler := Quiet)))
    as (this & w' & Hnew & Htype & _ & Hall).
  - vm_compute. discriminate.
  - by exists this, w'.
Defined.

(** X3 on a store that holds a character under [x-1]: a second
    [createObj] for which [util.uuid()] returns [x-1] again. *)
Lemma createObj_twice_under_one_uuid :
  ∃ this w',
    createObj "x-1" "handout" ∅ (final (one_character (Handler := Quiet)))
    = Normal this w'
    ∧ this ≠ 0
    ∧ pool w' !! "x-1" = Some this
    ∧ (∃ all, getAllObjs w' = Normal all w' ∧ this ∈ all ∧ 0 ∉ all).
Proof.
  apply (createObj_replaces_the_holder_of_its_id "x-1" "handout" ∅ 0
           (final one_character)).
  - reflexivity.
  - vm_compute. reflexivity.
  - eexists. vm_compute. reflexivity.
  - intros k Hk. rewrite pool_one_character in Hk.
    by apply lookup_singleton_Some in Hk as [-> _].
Defined.

(** X5 for the field [name] of the character of [one_character]. *)
Lemma name_is_written_then_read :
  ∃ w', set 0 (inl "name") (VStr "Bob") (final (one_character (Handler := Quiet)))
        = Normal tt w'
    ∧ (∀ cb, get 0 "name" (Some cb) w' = cb (VStr "Bob") w')
    ∧ (¬ (async_type 0 (final (one_character (Handler := Quiet))) ∧ async_field "name") →
       get 0 "name" None w' = Normal (VStr "Bob") w').
Proof.
  apply (set_then_get_reads_the_value 0 "name" (VStr "Bob") (final one_character)).
  - apply (bool_decide_unpack _). vm_compute. exact I.
  - left. discriminate.
Defined.

(** X6 for the character of [one_character], which the pool holds. *)
Lemma registered_character_is_not_removed :
  ∃ r w', remove 0 (final (one_character (Handler := Quiet))) = Normal r w'
    ∧ heap w' = heap (final (one_character (Handler := Quiet)))
    ∧ (r = None ∨ r = Some 0).
Proof.
  destruct (remove_only_empties_the_slot_of_its_id 0
              (final (one_character (Handler := Quiet))))
    as (r & w' & Hremove & Hheap & _ & _ & _ & Hr & _).
  - vm_compute. discriminate.
  - by exists r, w'.
Defined.

(** X8 with [is_character] on [two_objects]. *)
Lemma characters_among_two_objects :
  ∃ all, getAllObjs two_objects = Normal all two_objects
    ∧ filterObjs is_character two_objects
      = Normal (filter (λ x, strict_eq (field x "_type" two_objects) (VStr "character"))
                  all) two_objects.
Proof.
  apply (filterObjs_keeps_what_the_callback_accepts is_character
           (λ w x, strict_eq (field x "_type" w) (VStr "character")) two_objects).
  intros x w. apply is_character_reads.
Defined.

(** X9 for the character of [one_character] and the pattern
    [{ type: "character" }]. *)
Lemma test_of_the_created_character :
  findObjs_test type_character false 0 (final (one_character (Handler := Quiet)))
  = Normal (loose_eq (VObj 0) VUndefined) (final (one_character (Handler := Quiet))).
Proof.
  apply (findObjs_test_compares_the_bag_with_the_pattern_entry type_character false 0
           (final (one_character (Handler := Quiet)))).
  vm_compute. reflexivity.
Defined.

(** X10 for a second subscription to [chat]. *)
Lemma on_chat_after_on_chat :
  ∃ w', on "chat" (Store 0 "again") (final (on "chat" (Store 0 "heard") initial))
        = Normal tt w'
    ∧ registered "chat" w'
      = registered "chat" (final (on "chat" (Store 0 "heard") initial))
        ++ [Store 0 "again"].
Proof.
  destruct (on_appends_to_its_channel_only "chat" (Store 0 "again")
              (final (on "chat" (Store 0 "heard") initial))) as [Htaken _].
  - apply keeps_on, registry_wf_initial.
  - destruct Htaken as (w' & Hon & Hreg & _).
    + left. apply (bool_decide_unpack _). vm_compute. exact I.
    + exists w'. split; [exact Hon | exact Hreg].
Defined.

(** X11 for a session whose handlers subscribe further handlers. *)
Lemma scripted_session_keeps_the_registry :
  registry_wf
    (final (forEach [UseOnSheetWorkerCompleted (SubscribeOnce Stop);
                     UseFire sheetWorkerCompleted [];
                     UseOn "a:b" (Subscribe "a" Stop);
                     UseFire "a:b" []]
              (use run_script) initial)).
Proof.
  destruct (registry_stays_well_formed run_script
              [UseOnSheetWorkerCompleted (SubscribeOnce Stop);
               UseFire sheetWorkerCompleted [];
               UseOn "a:b" (Subscribe "a" Stop);
               UseFire "a:b" []] initial) as [Hinitial Hkeep].
  - intros h rest w. apply run_script_keeps.
  - exact (Hkeep Hinitial).
Defined.

(** X12: a handler subscribed to [chat] hears [chat:message]. *)
Lemma chat_subscription_hears_chat_message :
  ∃ w1 calls w',
    on "chat" (Store 0 "heard") three_channels = Normal tt w1
    ∧ _fireEvent run_quiet "chat:message" [VStr "Foo!"] w1
      = visit_all run_quiet "chat:message" [VStr "Foo!"] w1 (levels "chat:message") w1
    ∧ visit run_quiet [VStr "Foo!"] w1 "chat"
      = (info (FiringEvent "chat" [VStr "Foo!"]) ;;
         run_each run_quiet [VStr "Foo!"]
           (registered "chat" three_channels ++ [Store 0 "heard"]))
    ∧ _fireEvent run_quiet "chat:message" [VStr "Foo!"] w1 = Normal calls w'
    ∧ (Store 0 "heard", [VStr "Foo!"]) ∈ calls.
Proof.
  apply (subscription_hears_every_event_below_it run_quiet "chat" "chat:message"
           (Store 0 "heard") [VStr "Foo!"] three_channels).
  - exact run_quiet_same_registry.
  - discriminate.
  - apply (two_segments_plain "chat" "message"); [reflexivity|].
    apply (bool_decide_unpack _). vm_compute. exact I.
  - apply (bool_decide_unpack _). vm_compute. exact I.
Defined.

(** X13 for a third callback queued on [two_waiting]. *)
Lemma third_callback_is_called_once :
  ∃ w1 w2 w3,
    onSheetWorkerCompleted Stop two_waiting = Normal tt w1
    ∧ _fireEvent run_script sheetWorkerCompleted [] w1
      = drain run_script [] (registered sheetWorkerCompleted two_waiting ++ [Stop]) w1
    ∧ _fireEvent run_script sheetWorkerCompleted [] w1
      = Normal (calls_of [] (registered sheetWorkerCompleted two_waiting ++ [Stop])) w2
    ∧ _fireEvent run_script sheetWorkerCompleted [VStr "again"] w2
      = drain run_script [VStr "again"] [] w2
    ∧ _fireEvent run_script sheetWorkerCompleted [VStr "again"] w2 = Normal [] w3.
Proof.
  apply (queued_callback_is_called_by_the_next_fire_only run_script Stop []
           [VStr "again"] two_waiting).
  exact run_script_grows.
Defined.

(** X15 on [below_completed]. *)
Lemma fire_below_completed_keeps_the_queue :
  _fireEvent run_quiet (sheetWorkerCompleted +:+ ":" +:+ "x") [] below_completed
  = visit_all run_quiet (sheetWorkerCompleted +:+ ":" +:+ "x") [] below_completed
      [sheetWorkerCompleted +:+ ":" +:+ "x"; sheetWorkerCompleted] below_completed
  ∧ ∃ w', _fireEvent run_quiet (sheetWorkerCompleted +:+ ":" +:+ "x") [] below_completed
          = Normal (calls_of [] (registered (sheetWorkerCompleted +:+ ":" +:+ "x")
                                   below_completed)
                    ++ calls_of [] (registered sheetWorkerCompleted below_completed)) w'
      ∧ registered sheetWorkerCompleted w'
        = registered sheetWorkerCompleted below_completed.
Proof.
  apply (firing_below_sheetWorkerCompleted_keeps_the_queue run_quiet "x" []
           below_completed).
  - exact run_quiet_same_registry.
  - exact I.
Defined.

(** X16 on [faulty_queue]: the error of the fire is the one its first
    callback throws. *)
Lemma faulty_fire_throws_what_its_callback_threw :
  (∃ h w1, run_faulty h [] w1
           = Throw (Error "boom")
               (set_console (λ c, c ++ [(TRACE, FireEvent sheetWorkerCompleted [])])
                  faulty_queue))
  ∨ (Error "boom" = TypeError forEach_is_not_a_function
     ∧ ∃ first, head (split_colon sheetWorkerCompleted) = Some first
                ∧ first ∈ Object_prototype_names).
Proof.
  apply (fire_throws_what_a_handler_threw_or_at_an_inherited_name run_faulty
           sheetWorkerCompleted [] faulty_queue).
  vm_compute. reflexivity.
Defined.

(** X17 on [faulty_queue]. *)
Lemma faulty_queue_ends_at_its_first_callback :
  _fireEvent run_faulty sheetWorkerCompleted [] faulty_queue
  = Throw (Error "boom")
      (set_console (λ c, c ++ [(TRACE, FireEvent sheetWorkerCompleted [])])
         faulty_queue).
Proof.
  apply (failing_first_callback_ends_the_fire run_faulty (Raise (Error "boom")) [Fine]
           [] faulty_queue).
  - vm_compute. reflexivity.
  - vm_compute. reflexivity.
Defined.

(** X18 for a fire of [a:b:c] in a new library instance. *)
Lemma fire_a_b_c_in_a_new_instance :
  ∃ w', _fireEvent run_quiet "a:b:c" [] initial = Normal [] w'
    ∧ console w'
      = console (initial (Handler := Quiet))
        ++ (TRACE, FireEvent "a:b:c" [])
           :: ((λ name, (INFO, FiringEvent name [])) <$> levels "a:b:c").
Proof.
  destruct (fire_logs_one_line_per_level run_quiet "a:b:c" [] initial)
    as [(w' & Hfire & Hconsole & _) _].
  - discriminate.
  - intros first [= <-]. apply (bool_decide_unpack _). vm_compute. exact I.
  - intros name _. reflexivity.
  - by exists w'.
Defined.

(** X20: a [sendChat] given in [cfg.mocks], no host function, no
    wrapper. *)
Lemma configured_sendChat_is_bound :
  bound (bind_all demo_mock (demo_wrapper "logged")
           [("sendChat", Some "my sendChat")] [] ∅) "sendChat"
  = Some "my sendChat".
Proof.
  rewrite (configured_mock_replaces_the_builtin demo_mock (demo_wrapper "logged")
             [("sendChat", Some "my sendChat")] [] ∅ "sendChat" (Some "my sendChat")).
  - vm_compute. reflexivity.
  - apply NoDup_singleton.
  - by left.
  - apply (bool_decide_unpack _). vm_compute. exact I.
Defined.

(** X21: a wrapper for [createObj] given in [cfg.wrappers]. *)
Lemma configured_createObj_wrapper_is_applied :
  bound (bind_all demo_mock (demo_wrapper "logged") []
           [("createObj", demo_wrapper "checked")] ∅) "createObj"
  = Some "checked(mock createObj)".
Proof.
  rewrite (configured_wrapper_replaces_the_builtin demo_mock (demo_wrapper "logged") []
             [("createObj", demo_wrapper "checked")] ∅ "createObj"
             (demo_wrapper "checked")).
  - vm_compute. reflexivity.
  - apply NoDup_singleton.
  - by left.
  - apply (bool_decide_unpack _). vm_compute. exact I.
Defined.

(** X22: [sendChat] promoted from [demo_api] to an empty scope. *)
Lemma sendChat_is_promoted :
  _promote (Some (inl "sendChat")) demo_api ∅ !! "sendChat"
  = Some (Some "checked(mock sendChat)")
  ∧ _promote (Some (inl "sendChat")) demo_api ∅ !! "sendPing" = None.
Proof.
  destruct (promote_writes_exactly_the_promotion_keys (Some (inl "sendChat")) demo_api ∅)
    as (Hwritten & Hkept & _).
  - intros k ->%list_elem_of_singleton. apply (bool_decide_unpack _).
    vm_compute. exact I.
  - split.
    + rewrite Hwritten by (by left). vm_compute. reflexivity.
    + rewrite Hkept; [done|]. by intros [=]%list_elem_of_singleton.
Defined.

(** X23: the default logger, which emits [INFO], emits [ERROR]. *)
Lemma default_logger_emits_errors :
  Logger._emit (Logger.getLogger "console.log" None None None) Logger.ERROR "x" []
  = Some ("console.log", "LOG [ERROR]: x", []).
Proof.
  apply (logger_emits_every_level_above_one_it_emits
           (Logger.getLogger "console.log" None None None) Logger.INFO Logger.ERROR
           "x" []).
  - cbn. lia.
  - eexists. vm_compute. reflexivity.
Defined.

